(** * bump_version.py: a shallow embedding and its verified properties

    The release script [bump_version.py] reads a semantic version out of
    [basicmicro/__init__.py], mirrors it into [setup.py], optionally bumps it
    from the conventional-commit history, and tags the release.

    Python values are modelled as follows.
    - [str] is [text], a list of characters.  A character is a Rocq [ascii];
      it stands for a code point below 256.
    - [int] is [Z] (Python integers are unbounded).  The interpreter's
      optional limit on the length of decimal conversions is not modelled.
    - An exception is a value of [exn]; a call that may raise returns a
      [result].
    - [re.search] and [re.sub] are modelled by a backtracking matcher for the
      fragment of the pattern language that the script uses, and by the
      replacement-template parser of [re.sub].
    - The two manifest files and standard output form the [world] that the
      effectful functions thread through.  A file is the text stored in it;
      reading translates line endings as text mode does ([universal]), and
      writing stores the text as it is, as on a platform whose line separator
      is a line feed.  Both files exist and are readable and writable; the
      answers of the [git] commands are inputs. *)

From Stdlib Require Import List Ascii String ZArith Lia Bool Permutation.
Import ListNotations.

Local Open Scope Z_scope.
Local Open Scope list_scope.

(** ** Python strings *)

Module Py.

Definition text := list ascii.

(** A string literal of the source. *)
Definition lit (s : string) : text := list_ascii_of_string s.

Definition code (c : ascii) : Z := Z.of_nat (nat_of_ascii c).

Definition chr_eqb (a b : ascii) : bool := Ascii.eqb a b.

(** The double quote and the backslash. *)
Definition dq : ascii := Eval cbv in ascii_of_nat 34.
Definition backslash : ascii := Eval cbv in ascii_of_nat 92.

Fixpoint text_eqb (a b : text) : bool :=
  match a, b with
  | [], [] => true
  | x :: a', y :: b' => chr_eqb x y && text_eqb a' b'
  | _, _ => false
  end.

(** [s.startswith(p)] *)
Fixpoint startswith (p s : text) : bool :=
  match p, s with
  | [], _ => true
  | x :: p', y :: s' => chr_eqb x y && startswith p' s'
  | _ :: _, [] => false
  end.

(** [needle in hay] for two strings: substring containment. *)
Fixpoint contains (needle hay : text) : bool :=
  startswith needle hay ||
  match hay with
  | [] => false
  | _ :: hay' => contains needle hay'
  end.

(** [s.split(sep)] for a one-character separator: never returns the empty
    list, and the empty string splits into one empty field. *)
Fixpoint split (sep : ascii) (s : text) : list text :=
  match s with
  | [] => [[]]
  | c :: r =>
      if chr_eqb c sep then [] :: split sep r
      else match split sep r with
           | h :: t => (c :: h) :: t
           | [] => [[c]]
           end
  end.

(** Characters removed by [str.strip()]: the code points below 256 for which
    [str.isspace] holds. *)
Definition isspace (c : ascii) : bool :=
  let n := code c in
  ((9 <=? n) && (n <=? 13)) || ((28 <=? n) && (n <=? 32))
  || (n =? 133) || (n =? 160).

Fixpoint lstrip (sp : ascii -> bool) (s : text) : text :=
  match s with
  | c :: r => if sp c then lstrip sp r else s
  | [] => []
  end.

Definition rstrip (sp : ascii -> bool) (s : text) : text :=
  rev (lstrip sp (rev s)).

Definition strip_by (sp : ascii -> bool) (s : text) : text :=
  rstrip sp (lstrip sp s).

Definition strip (s : text) : text := strip_by isspace s.

(** Line feed and carriage return. *)
Definition lf : ascii := Eval cbv in ascii_of_nat 10.
Definition cr : ascii := Eval cbv in ascii_of_nat 13.

(** What a file opened for reading in text mode gives for its characters:
    universal newlines, that is CR LF and a CR alone each become LF. *)
Fixpoint universal (s : text) : text :=
  match s with
  | [] => []
  | c :: r =>
      if chr_eqb c cr then
        lf :: match r with
              | c2 :: r2 => if chr_eqb c2 lf then universal r2 else universal r
              | [] => []
              end
      else c :: universal r
  end.

(** ** Python integers: [int(s)] and [str(n)] *)

(** White space that [int] skips around the literal. *)
Definition int_space (c : ascii) : bool :=
  let n := code c in
  ((9 <=? n) && (n <=? 13)) || (n =? 32) || (n =? 133) || (n =? 160).

Definition digit_of (c : ascii) : option Z :=
  let n := code c in
  if (48 <=? n) && (n <=? 57) then Some (n - 48) else None.

Definition is_digit (c : ascii) : bool :=
  match digit_of c with Some _ => true | None => false end.

(** Digits of a literal, most significant first; a single underscore may
    separate two digits.  [us] records that the previous character was an
    underscore. *)
Fixpoint digits_val (acc : Z) (us : bool) (s : text) : option Z :=
  match s with
  | [] => if us then None else Some acc
  | c :: r =>
      if chr_eqb c "_"%char then
        if us then None else digits_val acc true r
      else
        match digit_of c with
        | Some d => digits_val (acc * 10 + d) false r
        | None => None
        end
  end.

(** [int(s)] in base ten; [None] stands for [ValueError]. *)
Definition int (s : text) : option Z :=
  let s := strip_by int_space s in
  let '(neg, body) :=
    match s with
    | c :: r =>
        if chr_eqb c "-"%char then (true, r)
        else if chr_eqb c "+"%char then (false, r)
        else (false, s)
    | [] => (false, s)
    end in
  match body with
  | c :: _ =>
      if is_digit c then
        match digits_val 0 false body with
        | Some v => Some (if neg then - v else v)
        | None => None
        end
      else None
  | [] => None
  end.

Definition digit_chr (d : Z) : ascii := ascii_of_nat (Z.to_nat (48 + d)).

(** Decimal digits of a non-negative number, least significant first. *)
Fixpoint rdigits (fuel : nat) (n : Z) : text :=
  digit_chr (n mod 10) ::
  match fuel with
  | O => []
  | S f => if n <? 10 then [] else rdigits f (n / 10)
  end.

Definition digits (n : Z) : text :=
  rev (rdigits (Z.to_nat (Z.log2 n)) n).

(** [str(n)], which is also what an f-string field [{n}] produces. *)
Definition str (n : Z) : text :=
  if n <? 0 then "-"%char :: digits (- n) else digits n.

End Py.

Import Py.

(** ** Exceptions *)

Inductive exn : Type :=
| ValueError (msg : text)
| IndexError (msg : text)
| ReError
| CalledProcessError
| SystemExit (status : Z).

Inductive result (A : Type) : Type :=
| Ok (a : A)
| Raise (e : exn).

Arguments Ok {A} a.
Arguments Raise {A} e.

Definition rbind {A B} (r : result A) (k : A -> result B) : result B :=
  match r with
  | Ok a => k a
  | Raise e => Raise e
  end.

Declare Scope res_scope.
Delimit Scope res_scope with res.
Notation "x <- r ;; k" := (rbind r (fun x => k))
  (at level 61, r at next level, right associativity) : res_scope.

(** ** The version bumper *)

Module Bumper.

Local Open Scope res_scope.

(** [list(map(int, fields))]: the first field that is not an integer literal
    raises [ValueError].  (Python quotes the field with [repr]; the message
    below is exact for fields of plain printable characters.) *)
Fixpoint ints (fields : list text) : result (list Z) :=
  match fields with
  | [] => Ok []
  | f :: fs =>
      match Py.int f with
      | Some n => ns <- ints fs ;; Ok (n :: ns)
      | None =>
          Raise (ValueError
                   (lit "invalid literal for int() with base 10: '"
                      ++ f ++ lit "'"))
      end
  end.

(** [parts[i]] for a non-negative index. *)
Definition getitem (parts : list Z) (i : nat) : result Z :=
  match nth_error parts i with
  | Some v => Ok v
  | None => Raise (IndexError (lit "list index out of range"))
  end.

Fixpoint update (parts : list Z) (i : nat) (v : Z) : option (list Z) :=
  match parts, i with
  | [], _ => None
  | _ :: r, O => Some (v :: r)
  | x :: r, S j =>
      match update r j v with
      | Some r' => Some (x :: r')
      | None => None
      end
  end.

(** [parts[i] = v] for a non-negative index. *)
Definition setitem (parts : list Z) (i : nat) (v : Z) : result (list Z) :=
  match update parts i v with
  | Some parts' => Ok parts'
  | None => Raise (IndexError (lit "list assignment index out of range"))
  end.

(** [parts[i] += d] reads the item, then stores the sum. *)
Definition additem (parts : list Z) (i : nat) (d : Z) : result (list Z) :=
  v <- getitem parts i ;; setitem parts i (v + d).

Definition bump_version (current_version bump_type : text) : result text :=
  parts <- ints (split "."%char current_version) ;;
  parts <-
    (if text_eqb bump_type (lit "major") then
       parts <- additem parts 0 1 ;;
       parts <- setitem parts 1 0 ;;
       setitem parts 2 0
     else if text_eqb bump_type (lit "minor") then
       parts <- additem parts 1 1 ;;
       setitem parts 2 0
     else if text_eqb bump_type (lit "patch") then
       additem parts 2 1
     else
       Raise (ValueError (lit "Invalid bump type: " ++ bump_type))) ;;
  a <- getitem parts 0 ;;
  b <- getitem parts 1 ;;
  c <- getitem parts 2 ;;
  Ok (str a ++ lit "." ++ str b ++ lit "." ++ str c).

End Bumper.

Import Bumper.


(** ** Regular expressions

    The fragment of Python's [re] that the script's five patterns use:
    literal characters, character sets, negated sets, the greedy [+] on a
    set, and capturing parentheses.  As in the engine's compiled form, a
    parenthesis is a [Mark] that records the current position. *)

Module Re.

Inductive atom : Type :=
| Chr (c : ascii)              (* the literal character c *)
| AnyOf (cs : list ascii)      (* [cs] *)
| NoneOf (cs : list ascii).    (* [^cs] *)

Inductive node : Type :=
| One (a : atom)
| Many1 (a : atom)             (* a+, greedy *)
| Mark.                        (* ( or ) *)

Definition regex := list node.

Definition mem (c : ascii) (cs : list ascii) : bool :=
  existsb (chr_eqb c) cs.

Definition accepts (a : atom) (c : ascii) : bool :=
  match a with
  | Chr x => chr_eqb c x
  | AnyOf cs => mem c cs
  | NoneOf cs => negb (mem c cs)
  end.

(** A run of literal characters. *)
Definition lits (t : text) : regex := map (fun c => One (Chr c)) t.

Definition chars (s : string) : regex := lits (lit s).

Section Exec.
Context {R : Type}.

(** Greedy repetition with backtracking: take one more character when the
    rest of the pattern then succeeds, otherwise stop here. *)
Fixpoint star (a : atom) (k : text -> option R) (s : text) : option R :=
  match s with
  | c :: s' =>
      if accepts a c then
        match star a k s' with
        | Some r => Some r
        | None => k s
        end
      else k s
  | [] => k s
  end.
End Exec.

(** [exec p marks s] matches [p] at the start of [s].  It returns the marks
    (each one the text that was still ahead when it was passed, in pattern
    order) and the text after the match. *)
Fixpoint exec (p : regex) (marks : list text) (s : text)
  : option (list text * text) :=
  match p with
  | [] => Some (rev marks, s)
  | One a :: p' =>
      match s with
      | c :: s' => if accepts a c then exec p' marks s' else None
      | [] => None
      end
  | Many1 a :: p' =>
      match s with
      | c :: s' => if accepts a c then star a (exec p' marks) s' else None
      | [] => None
      end
  | Mark :: p' => exec p' (s :: marks) s
  end.

(** The text between two positions given as the texts still ahead. *)
Definition between (from to : text) : text :=
  firstn (List.length from - List.length to) from.

Fixpoint pair_up (marks : list text) : list text :=
  match marks with
  | a :: b :: r => between a b :: pair_up r
  | _ => []
  end.

(** A match object: the text before the match, [group(0)], the numbered
    groups from 1, and the text after the match. *)
Record rmatch : Type := MkMatch {
  pre : text;
  whole : text;
  groups : list text;
  post : text
}.

Definition shift (c : ascii) (m : rmatch) : rmatch :=
  MkMatch (c :: pre m) (whole m) (groups m) (post m).

(** [re.search(p, s)]: the match at the leftmost position that has one. *)
Fixpoint search (p : regex) (s : text) : option rmatch :=
  match exec p [] s with
  | Some (marks, rest) => Some (MkMatch [] (between s rest) (pair_up marks) rest)
  | None =>
      match s with
      | c :: s' => option_map (shift c) (search p s')
      | [] => None
      end
  end.

(** [m.group(i)] *)
Definition group (m : rmatch) (i : nat) : option text :=
  match i with
  | O => Some (whole m)
  | S j => nth_error (groups m) j
  end.

Definition ngroups (p : regex) : nat :=
  Nat.div2 (List.length (filter (fun n => match n with Mark => true | _ => false end) p)).

(** *** Replacement templates

    [re.sub] reads its replacement string as a template: a backslash starts
    an escape.  A template is parsed once into pieces. *)

Inductive piece : Type :=
| PChr (c : ascii)
| PGroup (i : nat).

Definition is_octdigit (c : ascii) : bool :=
  (48 <=? code c) && (code c <=? 55).

Definition is_ascii_letter (c : ascii) : bool :=
  let n := code c in
  ((65 <=? n) && (n <=? 90)) || ((97 <=? n) && (n <=? 122)).

Definition octal (ds : text) : Z :=
  fold_left (fun acc c => acc * 8 + (code c - 48)) ds 0.

Definition decimal (ds : text) : Z :=
  fold_left (fun acc c => acc * 10 + (code c - 48)) ds 0.

Definition chr (n : Z) : ascii := ascii_of_nat (Z.to_nat n).

(** The single-character escapes: a, b, f, n, r, t, v and the backslash. *)
Definition escape (c : ascii) : option ascii :=
  if chr_eqb c "a" then Some (chr 7)
  else if chr_eqb c "b" then Some (chr 8)
  else if chr_eqb c "f" then Some (chr 12)
  else if chr_eqb c "n" then Some (chr 10)
  else if chr_eqb c "r" then Some (chr 13)
  else if chr_eqb c "t" then Some (chr 9)
  else if chr_eqb c "v" then Some (chr 11)
  else if chr_eqb c backslash then Some backslash
  else None.

(** The name of a [\g<name>] reference: the text up to the closing [>]. *)
Fixpoint until_gt (s : text) : option (text * text) :=
  match s with
  | [] => None
  | c :: r =>
      if chr_eqb c ">" then Some ([], r)
      else match until_gt r with
           | Some (name, rest) => Some (c :: name, rest)
           | None => None
           end
  end.

Definition group_ref (ng : nat) (i : Z) : option piece :=
  if i <=? Z.of_nat ng then Some (PGroup (Z.to_nat i)) else None.

(** A reference to group [i], followed by [rest]; a group that the pattern
    does not have is a template error. *)
Definition reference (ng : nat) (i : Z) (rest : text)
  : result (list piece * text) :=
  match group_ref ng i with
  | Some g => Ok ([g], rest)
  | None => Raise ReError
  end.

(** [name.isidentifier()] for code points below 256. *)
Definition is_id_start (c : ascii) : bool :=
  let n := code c in
  is_ascii_letter c || (n =? 95) || (n =? 170) || (n =? 181) || (n =? 186)
  || ((192 <=? n) && (n <=? 214)) || ((216 <=? n) && (n <=? 246))
  || ((248 <=? n) && (n <=? 255)).

Definition is_id_continue (c : ascii) : bool :=
  is_id_start c || is_digit c || (code c =? 183).

Definition is_identifier (name : text) : bool :=
  match name with
  | [] => false
  | c :: r => is_id_start c && forallb is_id_continue r
  end.

(** One escape, given the character [c] after the backslash and the text
    [r] after it: the pieces it stands for and the text left to parse.
    A malformed escape raises [re.error]; a reference by a name that is an
    identifier raises [IndexError], since none of the patterns names a
    group.  (Group names are read as Python 3.12 and later read them.) *)
Definition parse_escape (ng : nat) (c : ascii) (r : text)
  : result (list piece * text) :=
  if chr_eqb c "g" then
    match r with
    | lt :: r1 =>
        if chr_eqb lt "<" then
          match until_gt r1 with
          | Some (name, rest) =>
              match name with
              | [] => Raise ReError
              | _ :: _ =>
                  if forallb is_digit name then reference ng (decimal name) rest
                  else if is_identifier name then
                    Raise (IndexError (lit "unknown group name '" ++ name ++ lit "'"))
                  else Raise ReError
              end
          | None => Raise ReError
          end
        else Raise ReError
    | [] => Raise ReError
    end
  else if chr_eqb c "0" then
    match r with
    | d1 :: r1 =>
        if is_octdigit d1 then
          match r1 with
          | d2 :: r2 =>
              if is_octdigit d2
              then Ok ([PChr (chr (Z.land (octal [d1; d2]) 255))], r2)
              else Ok ([PChr (chr (octal [d1]))], r1)
          | [] => Ok ([PChr (chr (octal [d1]))], r1)
          end
        else Ok ([PChr (chr 0)], r)
    | [] => Ok ([PChr (chr 0)], r)
    end
  else if is_digit c then
    match r with
    | d1 :: r1 =>
        if is_digit d1 then
          match r1 with
          | d2 :: r2 =>
              if is_octdigit c && is_octdigit d1 && is_octdigit d2 then
                let v := octal [c; d1; d2] in
                if 255 <? v then Raise ReError else Ok ([PChr (chr v)], r2)
              else reference ng (decimal [c; d1]) r1
          | [] => reference ng (decimal [c; d1]) r1
          end
        else reference ng (decimal [c]) r
    | [] => reference ng (decimal [c]) r
    end
  else
    match escape c with
    | Some e => Ok ([PChr e], r)
    | None =>
        if is_ascii_letter c then Raise ReError
        else Ok ([PChr backslash; PChr c], r)
    end.

(** The template parser.  Every step consumes at least one character, so
    [length s] steps are enough (see [parse_template]). *)
Fixpoint parse_fuel (fuel : nat) (ng : nat) (s : text) : result (list piece) :=
  match s with
  | [] => Ok []
  | c :: r =>
      match fuel with
      | O => Raise ReError
      | S f =>
          if chr_eqb c backslash then
            match r with
            | [] => Raise ReError
            | e :: r' =>
                match parse_escape ng e r' with
                | Ok (ps, rest) =>
                    rbind (parse_fuel f ng rest) (fun more => Ok (ps ++ more))
                | Raise x => Raise x
                end
            end
          else rbind (parse_fuel f ng r) (fun more => Ok (PChr c :: more))
      end
  end.

Definition parse_template (ng : nat) (s : text) : result (list piece) :=
  parse_fuel (List.length s) ng s.

Definition expand_piece (m : rmatch) (p : piece) : text :=
  match p with
  | PChr c => [c]
  | PGroup i => match group m i with Some g => g | None => [] end
  end.

Definition expand (ps : list piece) (m : rmatch) : text :=
  flat_map (expand_piece m) ps.

(** Left-to-right replacement of the non-overlapping matches.  After an
    empty match the scan copies one character and goes on. *)
Fixpoint sub_fuel (fuel : nat) (p : regex) (ps : list piece) (s : text) : text :=
  match fuel with
  | O => s
  | S f =>
      match search p s with
      | None => s
      | Some m =>
          pre m ++ expand ps m ++
          match whole m with
          | _ :: _ => sub_fuel f p ps (post m)
          | [] =>
              match post m with
              | c :: r => c :: sub_fuel f p ps r
              | [] => []
              end
          end
      end
  end.

(** [re.sub(p, repl, s)]; the template is parsed before the search, so its
    error is raised also when nothing matches. *)
Definition sub (p : regex) (repl s : text) : result text :=
  match parse_template (ngroups p) repl with
  | Ok ps => Ok (sub_fuel (S (List.length s)) p ps s)
  | Raise e => Raise e
  end.

End Re.

Import Re.

(** ** The world: two manifest files and standard output *)

Record world : Type := MkWorld {
  init_py : text;      (* basicmicro/__init__.py *)
  setup_py : text;     (* setup.py *)
  stdout : list text   (* the lines printed so far *)
}.

(** An effectful computation: it ends with a value or an exception, and in
    both cases leaves a world behind (a file written before an exception
    stays written). *)
Definition M (A : Type) : Type := world -> result A * world.

Definition ret {A} (a : A) : M A := fun w => (Ok a, w).

Definition raise {A} (e : exn) : M A := fun w => (Raise e, w).

Definition bind {A B} (m : M A) (k : A -> M B) : M B :=
  fun w =>
    match m w with
    | (Ok a, w') => k a w'
    | (Raise e, w') => (Raise e, w')
    end.

Definition lift {A} (r : result A) : M A := fun w => (r, w).

(** [try: body except ValueError as e: handler(e)] *)
Definition try_ValueError {A} (body : M A) (handler : text -> M A) : M A :=
  fun w =>
    match body w with
    | (Raise (ValueError msg), w') => handler msg w'
    | r => r
    end.

Declare Scope prog_scope.
Delimit Scope prog_scope with prog.
Notation "x <- m ;; k" := (bind m (fun x => k))
  (at level 61, m at next level, right associativity) : prog_scope.
Notation "m ;; k" := (bind m (fun _ => k))
  (at level 61, right associativity) : prog_scope.

Definition print (line : text) : M unit :=
  fun w => (Ok tt, MkWorld (init_py w) (setup_py w) (stdout w ++ [line])).

(** [Path.read_text()]: the file is read in text mode. *)
Definition read_init : M text := fun w => (Ok (universal (init_py w)), w).
Definition read_setup : M text := fun w => (Ok (universal (setup_py w)), w).

(** [Path.write_text(content)]: the characters are stored as they are (the
    line separator of the platform is a line feed). *)
Definition write_init (content : text) : M unit :=
  fun w => (Ok tt, MkWorld content (setup_py w) (stdout w)).
Definition write_setup (content : text) : M unit :=
  fun w => (Ok tt, MkWorld (init_py w) content (stdout w)).

(** ** The script *)

Module Script.

Local Open Scope prog_scope.

Definition quotes : list ascii := [dq; "'"%char].

(** The patterns of the source.  In these comments Q stands for the double
    quote character.

    [__version__ = [Q']([^Q']+)[Q']], read by [get_current_version] *)
Definition p_init_read : regex :=
  chars "__version__ = " ++
  [One (AnyOf quotes); Mark; Many1 (NoneOf quotes); Mark; One (AnyOf quotes)].

(** [version=Q([^Q]+)Q], read by [get_setup_version] *)
Definition p_setup_read : regex :=
  chars "version=" ++
  [One (Chr dq); Mark; Many1 (NoneOf [dq]); Mark; One (Chr dq)].

(** [version=Q[^Q]+Q], rewritten by [sync_versions] *)
Definition p_setup_sync : regex :=
  chars "version=" ++ [One (Chr dq); Many1 (NoneOf [dq]); One (Chr dq)].

(** [__version__ = [Q'][^Q']+[Q']], rewritten by [update_version_files] *)
Definition p_init_write : regex :=
  chars "__version__ = " ++
  [One (AnyOf quotes); Many1 (NoneOf quotes); One (AnyOf quotes)].

(** [version=Q[^Q]+Q,] with its trailing comma, rewritten by
    [update_version_files] *)
Definition p_setup_write : regex :=
  chars "version=" ++
  [One (Chr dq); Many1 (NoneOf [dq]); One (Chr dq); One (Chr ",")].

(** The f-string [version=Q{v}Q] *)
Definition setup_field (v : text) : text := lit "version=" ++ [dq] ++ v ++ [dq].

(** The f-string [__version__ = Q{v}Q] *)
Definition init_field (v : text) : text :=
  lit "__version__ = " ++ [dq] ++ v ++ [dq].

(** The check mark that opens two of the status lines, as its three UTF-8
    bytes. *)
Definition check_mark : text := [Re.chr 226; Re.chr 156; Re.chr 133].

(** [match.group(1)], or [ValueError] when the search found nothing. *)
Definition group1 (m : option rmatch) (msg : string) : M text :=
  match m with
  | Some m =>
      match group m 1 with
      | Some g => ret g
      | None => raise (IndexError (lit "no such group"))
      end
  | None => raise (ValueError (lit msg))
  end.

Definition get_current_version : M text :=
  content <- read_init ;;
  group1 (search p_init_read content) "Could not find version in __init__.py".

Definition get_setup_version : M text :=
  content <- read_setup ;;
  group1 (search p_setup_read content) "Could not find version in setup.py".

Definition sync_versions : M bool :=
  init_version <- get_current_version ;;
  try_ValueError
    (setup_version <- get_setup_version ;;
     if negb (text_eqb init_version setup_version) then
       print (lit "Version mismatch detected:") ;;
       print (lit "  __init__.py: " ++ init_version) ;;
       print (lit "  setup.py:    " ++ setup_version) ;;
       print (lit "Syncing setup.py to match __init__.py...") ;;
       content <- read_setup ;;
       content <- lift (sub p_setup_sync (setup_field init_version) content) ;;
       write_setup content ;;
       print (check_mark ++ lit " Updated setup.py version to " ++ init_version) ;;
       ret true
     else
       print (check_mark ++ lit " Versions already in sync: " ++ init_version) ;;
       ret false)
    (fun e =>
       print (lit "Warning: " ++ e) ;;
       ret false).

Definition update_version_files (new_version : text) : M unit :=
  content <- read_init ;;
  content <- lift (sub p_init_write (init_field new_version) content) ;;
  write_init content ;;
  content <- read_setup ;;
  content <- lift (sub p_setup_write (setup_field new_version ++ lit ",") content) ;;
  write_setup content ;;
  print (lit "Updated version to " ++ new_version ++ lit " in:") ;;
  print (lit "  - basicmicro/__init__.py") ;;
  print (lit "  - setup.py").

(** *** The version-control commands

    What each [git] call of this run answers is an input: [Some out] is exit
    status zero with [out] on standard output, [None] a non-zero exit status,
    which [check=True] turns into [CalledProcessError]. *)

Record git : Type := MkGit {
  git_describe : option text;            (* git describe --tags --abbrev=0 *)
  git_log_range : text -> option text;   (* git log <range> --oneline *)
  git_log : option text;                 (* git log --oneline *)
  git_add : option text;                 (* git add <the two manifests> *)
  git_commit : text -> option text;      (* git commit -m <message> *)
  git_tag : text -> option text          (* git tag <name> *)
}.

Definition run_checked (out : option text) : result text :=
  match out with
  | Some o => Ok o
  | None => Raise CalledProcessError
  end.

(** [try: body except subprocess.CalledProcessError: handler] *)
Definition try_CalledProcessError {A} (body handler : result A) : result A :=
  match body with
  | Raise CalledProcessError => handler
  | r => r
  end.

Definition nl : ascii := Eval cbv in ascii_of_nat 10.

(** [out.strip().split('\n') if out.strip() else []] *)
Definition commit_lines (out : text) : list text :=
  match strip out with
  | [] => []
  | _ :: _ => split nl (strip out)
  end.

Definition get_commits_since_last_tag (g : git) : result (list text) :=
  try_CalledProcessError
    (out <- run_checked (git_describe g) ;;
     let last_tag := strip out in
     out <- run_checked (git_log_range g (last_tag ++ lit "..HEAD")) ;;
     let commits := commit_lines out in
     Ok commits)%res
    (out <- run_checked (git_log g) ;;
     Ok (commit_lines out))%res.

Definition determine_bump_type (commits : list text) : option text :=
  let has_breaking := existsb (fun commit => contains (lit "!") commit) commits in
  let has_feat :=
    existsb (fun commit =>
               contains (lit "feat:") commit || contains (lit "feat(") commit)
            commits in
  let has_fix_or_perf :=
    existsb (fun commit =>
               existsb (fun keyword => contains keyword commit)
                       [lit "fix:"; lit "fix("; lit "perf:"; lit "perf("])
            commits in
  if has_breaking then Some (lit "major")
  else if has_feat then Some (lit "minor")
  else if has_fix_or_perf then Some (lit "patch")
  else None.

(** [x in xs] for a list of strings. *)
Definition text_in (x : text) (xs : list text) : bool := existsb (text_eqb x) xs.

(** The statements of [main] after the bump kind is known. *)
Definition release (g : git) (bump_type : text) : M unit :=
  current_version <- get_current_version ;;
  new_version <- lift (bump_version current_version bump_type) ;;
  print (lit "Bumping version from " ++ current_version ++ lit " to "
           ++ new_version ++ lit " (" ++ bump_type ++ lit ")") ;;
  update_version_files new_version ;;
  let tag_name := lit "v" ++ new_version in
  lift (run_checked (git_add g)) ;;
  lift (run_checked (git_commit g (lit "chore(release): " ++ new_version))) ;;
  lift (run_checked (git_tag g tag_name)) ;;
  print (lit "Created tag: " ++ tag_name) ;;
  print (lit "Version successfully bumped to " ++ new_version).

(** [main()]; [argv] is [sys.argv], the script name first. *)
Definition main (g : git) (argv : list text) : M unit :=
  was_synced <- sync_versions ;;
  match argv with
  | _ :: bump_type :: _ =>
      if negb (text_in bump_type
                 [lit "major"; lit "minor"; lit "patch"; lit "sync"]) then
        print (lit "Usage: python bump_version.py [major|minor|patch|sync]") ;;
        raise (SystemExit 1)
      else if text_eqb bump_type (lit "sync") then
        if (was_synced : bool) then print (lit "Version sync completed successfully")
        else print (lit "Versions were already in sync")
      else release g bump_type
  | _ =>
      commits <- lift (get_commits_since_last_tag g) ;;
      match determine_bump_type commits with
      | Some ((_ :: _) as bump_type) => release g bump_type
      | _ =>   (* [not bump_type]: None, or the empty string *)
          if (was_synced : bool) then
            print (lit "Version sync completed, but no version bump needed (no feat/fix/perf commits found)")
          else
            print (lit "No version bump needed (no feat/fix/perf commits found)")
      end
  end.

End Script.

Import Script.


(** * Vocabulary of the properties *)

(** ** Numerals and versions *)

Definition digit (c : ascii) : Prop := is_digit c = true.

(** The value of a run of digits, least significant first. *)
Fixpoint rval (ds : text) : Z :=
  match ds with
  | [] => 0
  | c :: r => match digit_of c with Some d => d | None => 0 end + 10 * rval r
  end.

(** The textual form [major.minor.patch] of a version. *)
Definition version_text (x y z : Z) : text :=
  str x ++ lit "." ++ str y ++ lit "." ++ str z.

(** The number that a run of decimal digits denotes, read from the left. *)
Definition denotes (t : text) : Z :=
  fold_left (fun acc c => 10 * acc + (code c - 48)) t 0.

(** [t] is the decimal numeral of [n]: digits only, at least one, no
    leading zero except for the numeral [0] itself, and of value [n]. *)
Definition numeral (n : Z) (t : text) : Prop :=
  t <> []
  /\ Forall digit t
  /\ (hd_error t = Some "0"%char -> t = lit "0")
  /\ denotes t = n.

(** [t] is [a.b.c]: three decimal numerals joined by two dots. *)
Definition dotted (a b c : Z) (t : text) : Prop :=
  exists ta tb tc,
    t = ta ++ lit "." ++ tb ++ lit "." ++ tc
    /\ numeral a ta /\ numeral b tb /\ numeral c tc.

(** ** Commit messages *)

(** A commit message mentions a marker: the marker is a substring of it. *)
Definition mentions (marker : string) (commit : text) : Prop :=
  exists a b, commit = a ++ lit marker ++ b.

Definition breaking (commit : text) : Prop := mentions "!" commit.

Definition feature (commit : text) : Prop :=
  mentions "feat:" commit \/ mentions "feat(" commit.

Definition fix_or_perf (commit : text) : Prop :=
  mentions "fix:" commit \/ mentions "fix(" commit
  \/ mentions "perf:" commit \/ mentions "perf(" commit.

(** ** Matches and rewrites *)

(** A pattern that begins with a character never matches the empty
    text. *)
Definition consuming (p : regex) : Prop := exists a p', p = One a :: p'.

(** No match of [p] starts inside [gap] when [tail] follows it. *)
Definition unmatched (p : regex) (gap tail : text) : Prop :=
  forall a b, gap = a ++ b -> b <> [] -> exec p [] (b ++ tail) = None.

(** [old] rewritten into [new]: scanning from the left, every substring
    that [p] matches is replaced by [r], the scan goes on after the match,
    and every character outside the matches is kept. *)
Inductive Rewritten (p : regex) (r : text) : text -> text -> Prop :=
| rw_none (s : text) :
    (forall a b, s = a ++ b -> exec p [] b = None) ->
    Rewritten p r s s
| rw_match (gap m rest : text) (marks : list text) (new : text) :
    unmatched p gap (m ++ rest) ->
    m <> [] -> exec p [] (m ++ rest) = Some (marks, rest) ->
    Rewritten p r rest new ->
    Rewritten p r (gap ++ m ++ rest) (gap ++ r ++ new).

(** [re.sub] with a parsed template, on enough fuel: a match of a consuming
    pattern shortens the text that is left. *)
Definition subst (p : regex) (ps : list piece) (s : text) : text :=
  sub_fuel (S (List.length s)) p ps s.

(** ** The shape of the five patterns

    Each pattern of the script is a name, an opening character, a non-empty
    run of characters outside a stop set (the version), a closing character
    and a tail; the two read patterns also mark the run as group 1. *)

Record field : Type := MkField {
  f_name : text;
  f_open : atom;
  f_stop : list ascii;
  f_close : atom;
  f_tail : text
}.

Definition mark (marked : bool) : regex := if marked then [Mark] else [].

Definition field_regex (marked : bool) (f : field) : regex :=
  lits (f_name f) ++
  One (f_open f) :: mark marked ++
  Many1 (NoneOf (f_stop f)) :: mark marked ++
  One (f_close f) :: lits (f_tail f).

(** The field occurs at the start of [s] with value [v], and [rest]
    follows it. *)
Definition occurs (f : field) (s v rest : text) : Prop :=
  exists o c,
    s = f_name f ++ o :: v ++ c :: f_tail f ++ rest
    /\ accepts (f_open f) o = true
    /\ v <> []
    /\ Forall (fun x => mem x (f_stop f) = false) v
    /\ accepts (f_close f) c = true.

(** The closing character belongs to the stop set, so the greedy run ends
    exactly at it. *)
Definition closes (f : field) : Prop :=
  forall c, accepts (f_close f) c = true -> mem c (f_stop f) = true.

Definition setup_f : field := MkField (lit "version=") (Chr dq) [dq] (Chr dq) [].
Definition setup_comma_f : field :=
  MkField (lit "version=") (Chr dq) [dq] (Chr dq) (lit ",").
Definition init_f : field :=
  MkField (lit "__version__ = ") (AnyOf quotes) quotes (AnyOf quotes) [].

(** ** Readers and output *)

(** What a reader returns for the outcome of its search. *)
Definition found (m : option rmatch) (msg : string) : result text :=
  match m with
  | Some m =>
      match group m 1 with
      | Some g => Ok g
      | None => Raise (IndexError (lit "no such group"))
      end
  | None => Raise (ValueError (lit msg))
  end.

Definition read_init_version (content : text) : result text :=
  found (search p_init_read content) "Could not find version in __init__.py".

Definition read_setup_version (content : text) : result text :=
  found (search p_setup_read content) "Could not find version in setup.py".

(** The world after some more lines were printed. *)
Definition say (w : world) (lines : list text) : world :=
  MkWorld (init_py w) (setup_py w) (stdout w ++ lines).

(** ** Further vocabulary *)

(** [sep.join(fields)] *)
Fixpoint join (sep : ascii) (fields : list text) : text :=
  match fields with
  | [] => []
  | [f] => f
  | f :: more => f ++ sep :: join sep more
  end.

(** How far a bump decision reaches: none, patch, minor, major. *)
Definition rank (k : option text) : nat :=
  match k with
  | None => 0
  | Some t =>
      if text_eqb t (lit "major") then 3
      else if text_eqb t (lit "minor") then 2
      else if text_eqb t (lit "patch") then 1
      else 0
  end.

(** The version [(a, b, c)] comes after [(x, y, z)]. *)
Definition later (x y z a b c : Z) : Prop :=
  x < a \/ (x = a /\ y < b) \/ (x = a /\ y = b /\ z < c).


(** A field whose value sits between two quotation characters: the opening
    and the closing character are exactly the characters of the stop set,
    the name holds none of them, and nothing follows the closing one. *)
Definition stops (f : field) (c : ascii) : bool := mem c (f_stop f).

Definition quoted (f : field) : Prop :=
  f_tail f = []
  /\ f_name f <> []
  /\ Forall (fun c => stops f c = false) (f_name f)
  /\ (forall c, accepts (f_open f) c = stops f c)
  /\ (forall c, accepts (f_close f) c = stops f c).

(** A field whose name and quotation characters are no line endings. *)
Definition newline_free (f : field) : Prop :=
  Forall (fun c => c <> cr /\ c <> lf) (f_name f)
  /\ (forall c, stops f c = true -> c <> cr /\ c <> lf).

(** A version text that can be written into both manifests and read back
    as it is: not empty, without quotation character, without backslash and
    without carriage return. *)
Definition plain (v : text) : Prop :=
  v <> [] /\ ~ In dq v /\ ~ In "'"%char v /\ ~ In backslash v /\ ~ In cr v.

(** The world after [update_version_files] has rewritten both manifests for
    the version [nv] and [lines] were printed. *)
Definition rewritten (nv : text) (w : world) (lines : list text) : world :=
  MkWorld (subst p_init_write (map PChr (init_field nv))
                 (universal (init_py w)))
          (subst p_setup_write (map PChr (setup_field nv ++ lit ","))
                 (universal (setup_py w)))
          (stdout w ++ lines).

(** The three commands of the tagging step all exit with status zero. *)
Definition tagging_succeeds (g : git) (nv : text) : Prop :=
  git_add g <> None
  /\ git_commit g (lit "chore(release): " ++ nv) <> None
  /\ git_tag g (lit "v" ++ nv) <> None.

(** ** Example inputs *)

(** A run in which [git describe] finds the tag v1.0.0, the range log exits
    with a non-zero status, and the whole log has two commits. *)
Definition git_range_fails : git :=
  MkGit (Some (lit "v1.0.0" ++ [nl]))
        (fun _ => None)
        (Some (lit "b2 fix: later" ++ [nl] ++ lit "a1 feat: first" ++ [nl]))
        (Some []) (fun _ => Some []) (fun _ => Some []).

(** An __init__.py with version 1.2.3 beside a setup.py without a version
    field. *)
Definition world_no_setup_field : world :=
  MkWorld (lit "__version__ = '1.2.3'") (lit "setup(name='basicmicro')") [].

(** An __init__.py without a version assignment. *)
Definition world_no_init_field : world :=
  MkWorld (lit "# no version here") (lit "setup(name='basicmicro')") [].

(** A tree whose two manifests disagree: 1.2.3 in __init__.py, 1.2.0 in
    setup.py. *)
Definition world_mismatch : world :=
  MkWorld (lit "__version__ = '1.2.3'")
          (lit "setup(name='basicmicro', version=" ++ [dq] ++ lit "1.2.0"
             ++ [dq] ++ lit ", packages=[])")
          [].

(** Version-control commands that all succeed and print nothing. *)
Definition git_quiet : git :=
  MkGit (Some (lit "v1.2.0")) (fun _ => Some []) (Some [])
        (Some []) (fun _ => Some []) (fun _ => Some []).

(** A setup.py whose version field is the last argument, without a comma
    after it. *)
Definition world_no_comma : world :=
  MkWorld (lit "__version__ = '1.2.3'")
          (lit "setup(name='basicmicro', version=" ++ [dq] ++ lit "1.2.3"
             ++ [dq] ++ lit ")")
          [].

(** A setup.py with a second field that ends in [version=], after the
    version itself. *)
Definition world_two_fields : world :=
  MkWorld (lit "__version__ = '1.2.3'")
          (lit "setup(version=" ++ [dq] ++ lit "1.2.3" ++ [dq]
             ++ lit ", min_version=" ++ [dq] ++ lit "0.9" ++ [dq] ++ lit ",)")
          [].

(** An __init__.py whose version text holds a backslash followed by [n]. *)
Definition world_escape : world :=
  MkWorld (lit "__version__ = '1.2.3\n'")
          (lit "setup(version=" ++ [dq] ++ lit "1.2.0" ++ [dq] ++ lit ")")
          [].

(** Manifests whose lines end with CR LF. *)
Definition world_crlf : world :=
  MkWorld (lit "__version__ = '1.2.3'" ++ [cr; lf])
          (lit "setup(" ++ [cr; lf] ++ lit "version=" ++ [dq] ++ lit "1.2.3"
             ++ [dq] ++ lit "," ++ [cr; lf] ++ lit ")" ++ [cr; lf])
          [].

(** Texts are compared after their concatenations are nested to the
    right. *)
Ltac flatten :=
  repeat (rewrite <- app_assoc || rewrite <- app_comm_cons); cbn [app].
Ltac flatten_in H :=
  repeat (rewrite <- app_assoc in H || rewrite <- app_comm_cons in H);
  cbn [app] in H.

(** * Properties *)

(** ** Characters and strings *)

Lemma chr_eqb_eq (a b : ascii) : chr_eqb a b = true <-> a = b.
Proof. apply Ascii.eqb_eq. Qed.

Lemma chr_eqb_refl (a : ascii) : chr_eqb a a = true.
Proof. apply Ascii.eqb_refl. Qed.

Lemma chr_eqb_neq (a b : ascii) : chr_eqb a b = false <-> a <> b.
Proof. apply Ascii.eqb_neq. Qed.

Lemma text_eqb_eq (a b : text) : text_eqb a b = true <-> a = b.
Proof.
  revert b; induction a as [|x a IH]; intros [|y b]; simpl;
    try (split; [discriminate | discriminate]); try tauto.
  rewrite andb_true_iff, chr_eqb_eq, IH. split.
  - intros [-> ->]; reflexivity.
  - intros E; injection E; auto.
Qed.

Lemma text_eqb_refl (a : text) : text_eqb a a = true.
Proof. apply text_eqb_eq; reflexivity. Qed.

Lemma text_eqb_neq (a b : text) : a <> b -> text_eqb a b = false.
Proof.
  intros N. destruct (text_eqb a b) eqn:E; [|reflexivity].
  apply text_eqb_eq in E. contradiction.
Qed.

Lemma startswith_app (p s : text) :
  startswith p s = true <-> exists r, s = p ++ r.
Proof.
  revert s; induction p as [|x p IH]; intros s; simpl.
  - split; [exists s; reflexivity | reflexivity].
  - destruct s as [|y s].
    + split; [discriminate | intros [r E]; discriminate].
    + rewrite andb_true_iff, chr_eqb_eq, IH. split.
      * intros [-> [r ->]]. exists r; reflexivity.
      * intros [r E]. injection E as -> ->. split; [reflexivity | exists r; reflexivity].
Qed.

(** [contains] decides the substring relation. *)
Lemma contains_spec (needle hay : text) :
  contains needle hay = true <-> exists a b, hay = a ++ needle ++ b.
Proof.
  induction hay as [|c hay IH].
  - simpl. rewrite orb_false_r, startswith_app. split.
    + intros [r E]. exists [], r. exact E.
    + intros [a [b E]]. destruct a; simpl in E.
      * exists b; exact E.
      * discriminate.
  - change (contains needle (c :: hay))
      with (startswith needle (c :: hay) || contains needle hay).
    rewrite orb_true_iff, startswith_app, IH. split.
    + intros [[r E] | [a [b E]]].
      * exists [], r. exact E.
      * exists (c :: a), b. rewrite E. reflexivity.
    + intros [a [b E]]. destruct a as [|x a]; simpl in E.
      * left. exists b. exact E.
      * right. injection E as _ E. exists a, b. exact E.
Qed.

Lemma split_no_sep (sep : ascii) (s : text) :
  ~ In sep s -> split sep s = [s].
Proof.
  induction s as [|c s IH]; intros N; simpl; [reflexivity|].
  destruct (chr_eqb c sep) eqn:E.
  - apply chr_eqb_eq in E. exfalso. apply N. left. exact E.
  - rewrite IH; [reflexivity|]. intros I. apply N. right. exact I.
Qed.

Lemma split_app_sep (sep : ascii) (a b : text) :
  ~ In sep a -> split sep (a ++ sep :: b) = a :: split sep b.
Proof.
  induction a as [|c a IH]; intros N; simpl.
  - rewrite chr_eqb_refl. reflexivity.
  - destruct (chr_eqb c sep) eqn:E.
    + apply chr_eqb_eq in E. exfalso. apply N. left. exact E.
    + rewrite IH; [reflexivity|]. intros I. apply N. right. exact I.
Qed.

(** ** The version bumper *)

Section BumperFacts.

Local Open Scope res_scope.

(** All fields are integer literals: [ints] returns their values. *)
Lemma ints_numerals (fields : list text) (ns : list Z) :
  map Py.int fields = map Some ns -> ints fields = Ok ns.
Proof.
  revert ns; induction fields as [|f fs IH]; intros [|n ns] E;
    simpl in E; try discriminate; [reflexivity|].
  injection E as E1 E2. simpl. rewrite E1, (IH ns E2). reflexivity.
Qed.

(** [ints] raises nothing but [ValueError]. *)
Lemma ints_raises (fields : list text) (e : exn) :
  ints fields = Raise e -> exists msg, e = ValueError msg.
Proof.
  revert e; induction fields as [|f fs IH]; intros e; simpl; [discriminate|].
  destruct (Py.int f).
  - destruct (ints fs) as [ns|e'] eqn:E; simpl; [discriminate|].
    intros H; injection H as <-. apply (IH e' eq_refl).
  - intros H; injection H as <-. eexists; reflexivity.
Qed.

Variables (current_version : text) (parts : list Z).
Hypothesis fields : ints (split "."%char current_version) = Ok parts.

(** With three or more numeric fields every bump succeeds, and only the
    first three fields reach the result. *)
Lemma bump_three (x y z : Z) (more : list Z) :
  parts = x :: y :: z :: more ->
  bump_version current_version (lit "major")
    = Ok (str (x + 1) ++ lit "." ++ str 0 ++ lit "." ++ str 0)
  /\ bump_version current_version (lit "minor")
    = Ok (str x ++ lit "." ++ str (y + 1) ++ lit "." ++ str 0)
  /\ bump_version current_version (lit "patch")
    = Ok (str x ++ lit "." ++ str y ++ lit "." ++ str (z + 1)).
Proof.
  intros ->. unfold bump_version. rewrite fields. repeat split; reflexivity.
Qed.

(** With one or two numeric fields, [minor] and [patch] index past the end
    of the list. *)
Lemma bump_short :
  (List.length parts < 3)%nat ->
  (exists msg, bump_version current_version (lit "minor") = Raise (IndexError msg))
  /\ (exists msg, bump_version current_version (lit "patch") = Raise (IndexError msg)).
Proof.
  intros L. unfold bump_version. rewrite fields.
  destruct parts as [|x [|y [|z more]]]; simpl in L; try lia;
    split; eexists; reflexivity.
Qed.

(** Any other bump kind reaches the final [else]. *)
Lemma bump_invalid (bump_type : text) :
  bump_type <> lit "major" -> bump_type <> lit "minor" ->
  bump_type <> lit "patch" ->
  bump_version current_version bump_type
    = Raise (ValueError (lit "Invalid bump type: " ++ bump_type)).
Proof.
  intros N1 N2 N3. unfold bump_version. rewrite fields.
  rewrite !text_eqb_neq by assumption. reflexivity.
Qed.

End BumperFacts.

Lemma split_nonempty (sep : ascii) (s : text) : split sep s <> [].
Proof.
destruct s as [|c s]; simpl; [discriminate|].
destruct (chr_eqb c sep); [discriminate|].
destruct (split sep s); discriminate.
Qed.

(** ** Decimal numerals: [int(str(n)) = n] *)

Section Numerals.

Lemma digit_chr_digit (d : Z) :
  0 <= d < 10 -> digit_of (digit_chr d) = Some d.
Proof.
  intros R.
  assert (C : d = 0 \/ d = 1 \/ d = 2 \/ d = 3 \/ d = 4 \/ d = 5 \/ d = 6
              \/ d = 7 \/ d = 8 \/ d = 9) by lia.
  repeat (destruct C as [-> | C]; [reflexivity|]). subst d; reflexivity.
Qed.

(** A digit differs from every character that is not a digit. *)
Lemma digit_differs (c x : ascii) :
  digit c -> is_digit x = false -> chr_eqb c x = false.
Proof.
  intros D X. apply chr_eqb_neq. intros ->. unfold digit in D. congruence.
Qed.

Lemma digit_not_space (c : ascii) : digit c -> int_space c = false.
Proof.
  unfold digit, is_digit, digit_of, int_space. cbv zeta.
  destruct ((48 <=? code c) && (code c <=? 57)) eqn:E; [|discriminate].
  intros _. apply andb_true_iff in E as [E1 E2].
  apply Z.leb_le in E1. apply Z.leb_le in E2.
  rewrite !orb_false_iff, andb_false_iff. repeat split.
  - right. apply Z.leb_gt. lia.
  - apply Z.eqb_neq. lia.
  - apply Z.eqb_neq. lia.
  - apply Z.eqb_neq. lia.
Qed.

Lemma digits_val_snoc (xs : text) (c : ascii) (acc : Z) :
  Forall digit xs -> digit c ->
  digits_val acc false (xs ++ [c])
  = match digits_val acc false xs with
    | Some v => Some (v * 10 + match digit_of c with Some d => d | None => 0 end)
    | None => None
    end.
Proof.
  intros F D. revert acc. induction F as [|x xs Dx F IH]; intros acc; simpl.
  - rewrite (digit_differs c "_" D eq_refl).
    unfold digit, is_digit in D. destruct (digit_of c); [reflexivity|discriminate].
  - rewrite (digit_differs x "_" Dx eq_refl).
    unfold digit, is_digit in Dx. destruct (digit_of x); [apply IH|discriminate].
Qed.

Lemma digits_val_rev (ds : text) :
  Forall digit ds -> digits_val 0 false (rev ds) = Some (rval ds).
Proof.
  induction 1 as [|c ds D F IH]; cbn [rev rval]; [reflexivity|].
  rewrite digits_val_snoc; [|apply Forall_rev; exact F|exact D].
  rewrite IH. f_equal. destruct (digit_of c); lia.
Qed.

Lemma rdigits_digits (fuel : nat) (n : Z) :
  0 <= n -> Forall digit (rdigits fuel n).
Proof.
  revert n; induction fuel as [|f IH]; intros n N; simpl.
  - constructor; [|constructor].
    unfold digit, is_digit. rewrite digit_chr_digit; [reflexivity|].
    apply Z.mod_pos_bound; lia.
  - constructor.
    + unfold digit, is_digit. rewrite digit_chr_digit; [reflexivity|].
      apply Z.mod_pos_bound; lia.
    + destruct (n <? 10); [constructor|]. apply IH. apply Z.div_pos; lia.
Qed.

Lemma rval_rdigits (fuel : nat) (n : Z) :
  0 <= n < 10 ^ (Z.of_nat fuel + 1) -> rval (rdigits fuel n) = n.
Proof.
  revert n; induction fuel as [|f IH]; intros n N.
  - change (10 ^ (Z.of_nat 0 + 1)) with 10 in N. simpl.
    rewrite digit_chr_digit by (apply Z.mod_pos_bound; lia).
    rewrite Z.mod_small by lia. lia.
  - cbn [rdigits rval].
    rewrite digit_chr_digit by (apply Z.mod_pos_bound; lia).
    destruct (n <? 10) eqn:E.
    + apply Z.ltb_lt in E. simpl. rewrite Z.mod_small by lia. lia.
    + apply Z.ltb_ge in E. rewrite IH.
      * pose proof (Z.div_mod n 10). lia.
      * split; [apply Z.div_pos; lia|].
        apply Z.div_lt_upper_bound; [lia|].
        replace (Z.of_nat (S f) + 1) with (Z.succ (Z.of_nat f + 1)) in N by lia.
        rewrite Z.pow_succ_r in N by lia. lia.
Qed.

Lemma log2_fuel (n : Z) :
  0 <= n -> n < 10 ^ (Z.of_nat (Z.to_nat (Z.log2 n)) + 1).
Proof.
  intros N. rewrite Z2Nat.id by apply Z.log2_nonneg.
  destruct (Z.eq_dec n 0) as [->|P]; [reflexivity|].
  assert (L : n < 2 ^ Z.succ (Z.log2 n)) by (apply Z.log2_spec; lia).
  assert (M : 2 ^ Z.succ (Z.log2 n) <= 10 ^ Z.succ (Z.log2 n)).
  { apply Z.pow_le_mono_l. lia. }
  unfold Z.succ in *. lia.
Qed.

Lemma digits_digits (n : Z) : 0 <= n -> Forall digit (digits n).
Proof. intros N. apply Forall_rev, rdigits_digits, N. Qed.

Lemma digits_val_digits (n : Z) :
  0 <= n -> digits_val 0 false (digits n) = Some n.
Proof.
  intros N. unfold digits.
  rewrite digits_val_rev by (apply rdigits_digits, N).
  rewrite rval_rdigits; [reflexivity|].
  split; [exact N | apply log2_fuel, N].
Qed.

Lemma digits_nonempty (n : Z) : digits n <> [].
Proof.
  unfold digits. destruct (Z.to_nat (Z.log2 n)); cbn [rdigits rev];
    intros E; symmetry in E; apply app_cons_not_nil in E; exact E.
Qed.

Lemma lstrip_none (sp : ascii -> bool) (s : text) :
  Forall (fun c => sp c = false) s -> lstrip sp s = s.
Proof. destruct 1 as [|c s C _]; simpl; [reflexivity|]. rewrite C; reflexivity. Qed.

Lemma strip_none (sp : ascii -> bool) (s : text) :
  Forall (fun c => sp c = false) s -> strip_by sp s = s.
Proof.
  intros F. unfold strip_by, rstrip. rewrite (lstrip_none sp s F).
  rewrite lstrip_none by (apply Forall_rev, F). apply rev_involutive.
Qed.

(** Parsing the decimal numeral of a non-negative number gives it back. *)
Lemma int_str (n : Z) : 0 <= n -> Py.int (str n) = Some n.
Proof.
  intros N. unfold str. destruct (n <? 0) eqn:E; [apply Z.ltb_lt in E; lia|].
  pose proof (digits_digits n N) as F.
  pose proof (digits_val_digits n N) as V.
  unfold Py.int. rewrite strip_none.
  2:{ eapply Forall_impl; [|exact F]. intros c. apply digit_not_space. }
  destruct (digits n) as [|c r] eqn:D; [destruct (digits_nonempty n D)|].
  inversion F as [|? ? Dc _]; subst.
  rewrite (digit_differs c "-" Dc eq_refl), (digit_differs c "+" Dc eq_refl).
  unfold digit in Dc. rewrite Dc, V. reflexivity.
Qed.

Lemma str_no_dot (n : Z) : 0 <= n -> ~ In "."%char (str n).
Proof.
  intros N I. unfold str in I.
  destruct (n <? 0) eqn:E; [apply Z.ltb_lt in E; lia|].
  pose proof (digits_digits n N) as F. rewrite Forall_forall in F.
  specialize (F _ I). discriminate F.
Qed.

(** The canonical text of a version splits into its three numerals. *)
Lemma version_text_fields (x y z : Z) :
  0 <= x -> 0 <= y -> 0 <= z ->
  map Py.int (split "."%char (str x ++ lit "." ++ str y ++ lit "." ++ str z))
  = [Some x; Some y; Some z].
Proof.
  intros X Y Z. change (lit ".") with ["."%char]. simpl app.
  rewrite split_app_sep by (apply str_no_dot, X).
  rewrite split_app_sep by (apply str_no_dot, Y).
  rewrite split_no_sep by (apply str_no_dot, Z).
  simpl. rewrite !int_str by assumption. reflexivity.
Qed.

(** The value of a digit is its code minus 48. *)
Lemma digit_value (c : ascii) :
  digit c -> digit_of c = Some (code c - 48).
Proof.
  unfold digit, is_digit, digit_of. cbv zeta.
  destruct ((48 <=? code c) && (code c <=? 57)); [reflexivity|discriminate].
Qed.

Lemma denotes_rev (ds : text) : Forall digit ds -> denotes (rev ds) = rval ds.
Proof.
  intros F. unfold denotes. rewrite <- fold_left_rev_right, rev_involutive.
  induction F as [|c ds D F IH]; [reflexivity|].
  cbn [fold_right rval]. rewrite IH, (digit_value c D). lia.
Qed.

(** The most significant digit of a positive number is not zero. *)
Lemma rdigits_last (fuel : nat) (n : Z) :
  0 < n < 10 ^ (Z.of_nat fuel + 1) ->
  exists low d, rdigits fuel n = low ++ [digit_chr d] /\ 1 <= d <= 9.
Proof.
  revert n; induction fuel as [|f IH]; intros n N.
  - change (10 ^ (Z.of_nat 0 + 1)) with 10 in N.
    exists [], n. cbn [rdigits app]. rewrite Z.mod_small by lia.
    split; [reflexivity|lia].
  - cbn [rdigits]. destruct (n <? 10) eqn:E.
    + apply Z.ltb_lt in E. exists [], n. rewrite Z.mod_small by lia.
      split; [reflexivity|lia].
    + apply Z.ltb_ge in E.
      destruct (IH (n / 10)) as [low [d [R D]]].
      * split; [apply Z.div_str_pos; lia|].
        apply Z.div_lt_upper_bound; [lia|].
        replace (Z.of_nat (S f) + 1) with (Z.succ (Z.of_nat f + 1)) in N by lia.
        rewrite Z.pow_succ_r in N by lia. lia.
      * exists (digit_chr (n mod 10) :: low), d. rewrite R. auto.
Qed.

(** [str] writes the decimal numeral of a non-negative number. *)
Lemma str_numeral (n : Z) : 0 <= n -> numeral n (str n).
Proof.
  intros N. unfold str. destruct (n <? 0) eqn:E; [apply Z.ltb_lt in E; lia|].
  unfold numeral. split; [apply digits_nonempty|].
  split; [apply digits_digits, N|]. split.
  - destruct (Z.eq_dec n 0) as [->|P]; [reflexivity|].
    destruct (rdigits_last (Z.to_nat (Z.log2 n)) n) as [low [d [R D]]].
    { split; [lia|apply log2_fuel, N]. }
    unfold digits. rewrite R, rev_app_distr. cbn [rev app hd_error].
    intros H. exfalso. injection H as H.
    apply (f_equal digit_of) in H. rewrite digit_chr_digit in H by lia.
    injection H as H. lia.
  - unfold digits. rewrite denotes_rev by (apply rdigits_digits, N).
    apply rval_rdigits. split; [exact N|apply log2_fuel, N].
Qed.

(** The text of a version is its three numerals joined by dots. *)
Lemma version_text_dotted (a b c : Z) :
  0 <= a -> 0 <= b -> 0 <= c -> dotted a b c (version_text a b c).
Proof.
  intros A B C. exists (str a), (str b), (str c).
  split; [reflexivity|]. auto using str_numeral.
Qed.

End Numerals.


(** C1.  For every version text whose three dot-separated fields are the
  numerals of non-negative [x], [y] and [z] (by [version_text_fields] the
  canonical text [x.y.z] is one), [bump_version] follows the reset rule:
  [major] gives [(x+1).0.0], [minor] gives [x.(y+1).0] and [patch] gives
  [x.y.(z+1)].  Each result is formatted as [a.b.c]: three decimal
  numerals (digits only, no leading zero, of the stated values) joined by
  two dots, and splitting it at the dots and reading the fields with
  [int] gives the three numbers back. *)
Theorem bump_version_reset_rule (v : text) (x y z : Z) :
map Py.int (split "."%char v) = [Some x; Some y; Some z] ->
0 <= x -> 0 <= y -> 0 <= z ->
(bump_version v (lit "major") = Ok (version_text (x + 1) 0 0)
 /\ bump_version v (lit "minor") = Ok (version_text x (y + 1) 0)
 /\ bump_version v (lit "patch") = Ok (version_text x y (z + 1)))
/\ (dotted (x + 1) 0 0 (version_text (x + 1) 0 0)
    /\ dotted x (y + 1) 0 (version_text x (y + 1) 0)
    /\ dotted x y (z + 1) (version_text x y (z + 1)))
/\ (map Py.int (split "."%char (version_text (x + 1) 0 0))
    = [Some (x + 1); Some 0; Some 0]
    /\ map Py.int (split "."%char (version_text x (y + 1) 0))
       = [Some x; Some (y + 1); Some 0]
    /\ map Py.int (split "."%char (version_text x y (z + 1)))
       = [Some x; Some y; Some (z + 1)]).
Proof.
intros F X Y Z. split; [|split].
- apply (bump_three v [x; y; z] (ints_numerals _ [x; y; z] F) x y z []).
  reflexivity.
- repeat split; apply version_text_dotted; lia.
- repeat split; apply version_text_fields; lia.
Qed.

Lemma bump_version_reset_rule_witness :
(bump_version (lit "1.4.9") (lit "major") = Ok (lit "2.0.0")
 /\ bump_version (lit "1.4.9") (lit "minor") = Ok (lit "1.5.0")
 /\ bump_version (lit "1.4.9") (lit "patch") = Ok (lit "1.4.10"))
/\ (dotted 2 0 0 (lit "2.0.0")
    /\ dotted 1 5 0 (lit "1.5.0")
    /\ dotted 1 4 10 (lit "1.4.10")).
Proof.
destruct (bump_version_reset_rule (lit "1.4.9") 1 4 9) as [B [D _]];
  [reflexivity | lia | lia | lia |].
split; [exact B|exact D].
Defined.

(** C8.  For every bump kind other than [major], [minor] and [patch],
  [bump_version] raises [ValueError] and returns nothing; when the fields
  of the version are numerals the error is the one of the final [else],
  [Invalid bump type].  The function is a pure function of its two
  arguments: run inside the program it leaves the world as it was. *)
Theorem bump_version_invalid_kind (v k : text) :
k <> lit "major" -> k <> lit "minor" -> k <> lit "patch" ->
(exists msg, bump_version v k = Raise (ValueError msg))
/\ (forall parts, ints (split "."%char v) = Ok parts ->
    bump_version v k = Raise (ValueError (lit "Invalid bump type: " ++ k)))
/\ (forall v' k' w, lift (bump_version v' k') w = (bump_version v' k', w)).
Proof.
intros N1 N2 N3. split; [|split].
- destruct (ints (split "."%char v)) as [parts|e] eqn:E.
  + eexists. apply (bump_invalid v parts E k N1 N2 N3).
  + destruct (ints_raises _ _ E) as [msg ->].
    exists msg. unfold bump_version. rewrite E. reflexivity.
- intros parts E. apply (bump_invalid v parts E k N1 N2 N3).
- reflexivity.
Qed.

Lemma bump_version_invalid_kind_witness :
(exists msg, bump_version (lit "1.2.3") (lit "bogus") = Raise (ValueError msg))
/\ (forall parts, ints (split "."%char (lit "1.2.3")) = Ok parts ->
    bump_version (lit "1.2.3") (lit "bogus")
    = Raise (ValueError (lit "Invalid bump type: " ++ lit "bogus")))
/\ (forall v' k' w, lift (bump_version v' k') w = (bump_version v' k', w)).
Proof.
apply (bump_version_invalid_kind (lit "1.2.3") (lit "bogus"));
  intros E; discriminate E.
Defined.

(** C10.  [bump_version] does not check the number of fields.  With fewer
  than three numeric fields, [minor] and [patch] raise [IndexError] (not
  the [ValueError] of an invalid bump kind); with more than three, every
  bump succeeds and the result keeps the first three fields only. *)
Theorem bump_version_field_count (v : text) (ns : list Z) :
map Py.int (split "."%char v) = map Some ns ->
((List.length ns < 3)%nat ->
 (exists msg, bump_version v (lit "minor") = Raise (IndexError msg))
 /\ (exists msg, bump_version v (lit "patch") = Raise (IndexError msg)))
/\ (forall x y z t more, ns = x :: y :: z :: t :: more ->
    bump_version v (lit "major") = Ok (version_text (x + 1) 0 0)
    /\ bump_version v (lit "minor") = Ok (version_text x (y + 1) 0)
    /\ bump_version v (lit "patch") = Ok (version_text x y (z + 1))).
Proof.
intros F. apply ints_numerals in F. split.
- apply (bump_short v ns F).
- intros x y z t more E. apply (bump_three v ns F x y z (t :: more) E).
Qed.

Lemma bump_version_field_count_witness :
((exists msg, bump_version (lit "1.2") (lit "minor") = Raise (IndexError msg))
 /\ (exists msg, bump_version (lit "1.2") (lit "patch") = Raise (IndexError msg)))
/\ bump_version (lit "1.2.3.4") (lit "patch") = Ok (lit "1.2.4").
Proof.
split.
- apply (proj1 (bump_version_field_count (lit "1.2") [1; 2] eq_refl)).
  simpl. lia.
- apply (proj2 (bump_version_field_count (lit "1.2.3.4") [1; 2; 3; 4] eq_refl)
           1 2 3 4 [] eq_refl).
Defined.

(** ** The commit classifier *)

Section Classifier.

Lemma existsb_Exists {A} (f : A -> bool) (P : A -> Prop) (l : list A) :
  (forall x, f x = true <-> P x) ->
  existsb f l = true <-> Exists P l.
Proof.
  intros R. rewrite existsb_exists, Exists_exists.
  split; intros [x [I H]]; exists x; split; auto; apply R; exact H.
Qed.

Lemma existsb_not_Exists {A} (f : A -> bool) (P : A -> Prop) (l : list A) :
  (forall x, f x = true <-> P x) ->
  ~ Exists P l -> existsb f l = false.
Proof.
  intros R N. destruct (existsb f l) eqn:E; [|reflexivity].
  exfalso. apply N. apply (existsb_Exists f P l R). exact E.
Qed.

Lemma existsb_Permutation {A} (f : A -> bool) (l l' : list A) :
  Permutation l l' -> existsb f l = existsb f l'.
Proof.
  induction 1 as [|x l l' _ IH|x y l|l l' l'' _ IH1 _ IH2]; simpl.
  - reflexivity.
  - rewrite IH; reflexivity.
  - destruct (f x), (f y); reflexivity.
  - congruence.
Qed.

Lemma breaking_test (c : text) : contains (lit "!") c = true <-> breaking c.
Proof. apply contains_spec. Qed.

Lemma feature_test (c : text) :
  contains (lit "feat:") c || contains (lit "feat(") c = true <-> feature c.
Proof. rewrite orb_true_iff, !contains_spec. reflexivity. Qed.

Lemma fix_or_perf_test (c : text) :
  existsb (fun keyword => contains keyword c)
          [lit "fix:"; lit "fix("; lit "perf:"; lit "perf("] = true
  <-> fix_or_perf c.
Proof.
  cbn [existsb]. rewrite !orb_true_iff, !contains_spec.
  unfold fix_or_perf, mentions. intuition discriminate.
Qed.

End Classifier.

(** C2.  [determine_bump_type] answers [major] when some message mentions
  [!]; otherwise [minor] when some message mentions [feat:] or [feat(];
  otherwise [patch] when some message mentions [fix:], [fix(], [perf:] or
  [perf(]; otherwise [None].  The answer does not depend on the order of
  the messages.  In particular a [feat:] message together with a [!]
  message gives [major], a non-empty list of plain [fix(] messages gives
  [patch], and the empty list gives [None]. *)
Theorem classifier_precedence (commits : list text) :
(Exists breaking commits ->
 determine_bump_type commits = Some (lit "major"))
/\ (~ Exists breaking commits -> Exists feature commits ->
    determine_bump_type commits = Some (lit "minor"))
/\ (~ Exists breaking commits -> ~ Exists feature commits ->
    Exists fix_or_perf commits ->
    determine_bump_type commits = Some (lit "patch"))
/\ (~ Exists breaking commits -> ~ Exists feature commits ->
    ~ Exists fix_or_perf commits ->
    determine_bump_type commits = None)
/\ (forall commits', Permutation commits commits' ->
    determine_bump_type commits' = determine_bump_type commits)
/\ (forall a b, In a commits -> In b commits ->
    mentions "feat:" a -> mentions "!" b ->
    determine_bump_type commits = Some (lit "major"))
/\ (commits <> [] ->
    Forall (fun c => mentions "fix(" c /\ ~ breaking c /\ ~ feature c) commits ->
    determine_bump_type commits = Some (lit "patch"))
/\ determine_bump_type [] = None.
Proof.
pose proof (existsb_Exists (fun commit => contains (lit "!") commit)
              breaking commits breaking_test) as HB.
pose proof (existsb_Exists
              (fun commit => contains (lit "feat:") commit
                             || contains (lit "feat(") commit)
              feature commits feature_test) as HF.
pose proof (existsb_Exists
              (fun commit =>
                 existsb (fun keyword => contains keyword commit)
                         [lit "fix:"; lit "fix("; lit "perf:"; lit "perf("])
              fix_or_perf commits fix_or_perf_test) as HP.
assert (Cases : forall b f p : bool,
           (b = true <-> Exists breaking commits) ->
           (f = true <-> Exists feature commits) ->
           (p = true <-> Exists fix_or_perf commits) ->
           let r := if b then Some (lit "major")
                    else if f then Some (lit "minor")
                    else if p then Some (lit "patch") else None in
           (Exists breaking commits -> r = Some (lit "major"))
           /\ (~ Exists breaking commits -> Exists feature commits ->
               r = Some (lit "minor"))
           /\ (~ Exists breaking commits -> ~ Exists feature commits ->
               Exists fix_or_perf commits -> r = Some (lit "patch"))
           /\ (~ Exists breaking commits -> ~ Exists feature commits ->
               ~ Exists fix_or_perf commits -> r = None)).
{ intros [|] [|] [|] B F P; cbv zeta; repeat split; intros;
    try reflexivity; exfalso; intuition discriminate. }
destruct (Cases _ _ _ HB HF HP) as [Major [Minor [Patch Nothing]]].
clear Cases HB HF HP.
change (Exists breaking commits ->
        determine_bump_type commits = Some (lit "major")) in Major.
change (~ Exists breaking commits -> Exists feature commits ->
        determine_bump_type commits = Some (lit "minor")) in Minor.
change (~ Exists breaking commits -> ~ Exists feature commits ->
        Exists fix_or_perf commits ->
        determine_bump_type commits = Some (lit "patch")) in Patch.
change (~ Exists breaking commits -> ~ Exists feature commits ->
        ~ Exists fix_or_perf commits ->
        determine_bump_type commits = None) in Nothing.
repeat split.
- exact Major.
- exact Minor.
- exact Patch.
- exact Nothing.
- intros commits' P. unfold determine_bump_type.
  rewrite <- !(existsb_Permutation _ commits commits' P). reflexivity.
- intros a b _ Ib _ B. apply Major. apply Exists_exists. exists b. auto.
- intros NE F. rewrite Forall_forall in F. apply Patch.
  + intros B. apply Exists_exists in B as [c [I B]].
    destruct (F c I) as [_ [NB _]]. exact (NB B).
  + intros B. apply Exists_exists in B as [c [I B]].
    destruct (F c I) as [_ [_ NF]]. exact (NF B).
  + destruct commits as [|c r]; [contradiction|].
    apply Exists_cons_hd. right. left. apply (F c). left. reflexivity.
Qed.

Lemma classifier_precedence_witness :
determine_bump_type [lit "a1 feat: add"; lit "b2 refactor!: drop"]
= Some (lit "major")
/\ determine_bump_type [lit "b2 refactor!: drop"; lit "a1 feat: add"]
   = determine_bump_type [lit "a1 feat: add"; lit "b2 refactor!: drop"].
Proof.
pose proof (classifier_precedence
              [lit "a1 feat: add"; lit "b2 refactor!: drop"])
  as [_ [_ [_ [_ [P [M _]]]]]].
split.
- apply (M (lit "a1 feat: add") (lit "b2 refactor!: drop")).
  + left; reflexivity.
  + right; left; reflexivity.
  + exists (lit "a1 "), (lit " add"). reflexivity.
  + exists (lit "b2 refactor"), (lit ": drop"). reflexivity.
- apply P. apply perm_swap.
Defined.

(** ** Commit retrieval *)

(** With a tag and a successful range log, the commits are the lines of the
  range log. *)
Lemma commits_after_tag (g : git) (tag out : text) :
git_describe g = Some tag ->
git_log_range g (strip tag ++ lit "..HEAD") = Some out ->
get_commits_since_last_tag g = Ok (commit_lines out).
Proof.
intros D L. unfold get_commits_since_last_tag. rewrite D.
cbn [run_checked rbind]. rewrite ?L. reflexivity.
Qed.

(** Without a tag the commits are the lines of the whole log. *)
Lemma commits_without_tag (g : git) (out : text) :
git_describe g = None -> git_log g = Some out ->
get_commits_since_last_tag g = Ok (commit_lines out).
Proof.
intros D L. unfold get_commits_since_last_tag. rewrite D.
cbn [run_checked rbind]. rewrite ?L. reflexivity.
Qed.

(** The handler also catches a failing range log: the result is then the
  one of the run without a tag. *)
Lemma commits_range_failure (g : git) (tag : text) :
git_describe g = Some tag ->
git_log_range g (strip tag ++ lit "..HEAD") = None ->
get_commits_since_last_tag g
= rbind (run_checked (git_log g)) (fun out => Ok (commit_lines out)).
Proof.
intros D L. unfold get_commits_since_last_tag. rewrite D.
cbn [run_checked rbind]. rewrite ?L. reflexivity.
Qed.

(** C9, at the failing input: the range log fails after a tag was found,
  yet the call does not raise; it returns the whole history. *)
Theorem range_failure_returns_full_history :
get_commits_since_last_tag git_range_fails
= Ok [lit "b2 fix: later"; lit "a1 feat: first"].
Proof. reflexivity. Qed.

(** ** Regular expressions: what a match is *)

Section Matching.

(** The text a match leaves is a suffix of the text it started on. *)
Lemma star_inv {R} (a : atom) (k : text -> option R) (s : text) (r : R) :
  star a k s = Some r ->
  exists w s', s = w ++ s' /\ Forall (fun c => accepts a c = true) w
               /\ k s' = Some r.
Proof.
  induction s as [|c s IH]; simpl; intros H.
  - exists [], []. auto.
  - destruct (accepts a c) eqn:A.
    + destruct (star a k s) as [r'|] eqn:E.
      * injection H as ->. destruct (IH eq_refl) as [w [s' [-> [F K]]]].
        exists (c :: w), s'. auto.
      * exists [], (c :: s). auto.
    + exists [], (c :: s). auto.
Qed.

Lemma exec_suffix (p : regex) (marks : list text) (s : text) ms rest :
  exec p marks s = Some (ms, rest) -> exists m, s = m ++ rest.
Proof.
  revert marks s; induction p as [|n p IH]; intros marks s H; simpl in H.
  - injection H as _ <-. exists []. reflexivity.
  - destruct n as [a|a|].
    + destruct s as [|c s]; [discriminate|].
      destruct (accepts a c); [|discriminate].
      destruct (IH _ _ H) as [m ->]. exists (c :: m). reflexivity.
    + destruct s as [|c s]; [discriminate|].
      destruct (accepts a c); [|discriminate].
      apply star_inv in H as [w [s' [-> [_ K]]]].
      destruct (IH _ _ K) as [m ->].
      exists (c :: w ++ m). simpl. rewrite <- app_assoc. reflexivity.
    + apply (IH _ _ H).
Qed.

Lemma between_app (m rest : text) : between (m ++ rest) rest = m.
Proof.
  unfold between. rewrite length_app.
  replace (List.length m + List.length rest - List.length rest)%nat
    with (List.length m + 0)%nat by lia.
  rewrite firstn_app_2. simpl. apply app_nil_r.
Qed.

Lemma exec_consumes (p : regex) (s : text) ms rest :
  consuming p -> exec p [] s = Some (ms, rest) -> between s rest <> [].
Proof.
  intros [a [p' ->]] H. simpl in H.
  destruct s as [|c s]; [discriminate|].
  destruct (accepts a c); [|discriminate].
  destruct (exec_suffix _ _ _ _ _ H) as [m ->].
  change (c :: m ++ rest) with ((c :: m) ++ rest).
  rewrite between_app. discriminate.
Qed.

Lemma unmatched_cons (p : regex) (c : ascii) (gap tail : text) :
  exec p [] (c :: gap ++ tail) = None -> unmatched p gap tail ->
  unmatched p (c :: gap) tail.
Proof.
  intros E U a b S N. destruct a as [|x a]; simpl in S.
  - subst b. exact E.
  - injection S as _ S. apply (U a b S N).
Qed.

Lemma exec_between (p : regex) (s : text) marks rest :
  exec p [] s = Some (marks, rest) -> s = between s rest ++ rest.
Proof.
  intros E. destruct (exec_suffix _ _ _ _ _ E) as [w ->].
  rewrite between_app. reflexivity.
Qed.

Lemma unmatched_nil (p : regex) (tail : text) : unmatched p [] tail.
Proof.
  intros a b S N. destruct a; destruct b; try discriminate. contradiction.
Qed.

(** [search] returns the leftmost match. *)
Lemma search_spec (p : regex) (s : text) (m : rmatch) :
  search p s = Some m ->
  s = pre m ++ whole m ++ post m
  /\ (exists marks, exec p [] (whole m ++ post m) = Some (marks, post m)
                    /\ groups m = pair_up marks)
  /\ unmatched p (pre m) (whole m ++ post m).
Proof.
  assert (Here : forall t marks rest,
             exec p [] t = Some (marks, rest) ->
             let m := MkMatch [] (between t rest) (pair_up marks) rest in
             t = pre m ++ whole m ++ post m
             /\ (exists marks, exec p [] (whole m ++ post m) = Some (marks, post m)
                               /\ groups m = pair_up marks)
             /\ unmatched p (pre m) (whole m ++ post m)).
  { intros t marks rest E. cbn [pre whole groups post app].
    rewrite <- (exec_between _ _ _ _ E). repeat split.
    - exists marks. auto.
    - apply unmatched_nil. }
  revert m; induction s as [|c s IH]; intros m H.
  - simpl in H. destruct (exec p [] []) as [[marks rest]|] eqn:E; [|discriminate].
    injection H as <-. apply (Here _ _ _ E).
  - simpl in H. destruct (exec p [] (c :: s)) as [[marks rest]|] eqn:E.
    + injection H as <-. apply (Here _ _ _ E).
    + destruct (search p s) as [m'|] eqn:Es; [|discriminate].
      injection H as <-. destruct (IH m' eq_refl) as [S [X U]].
      simpl. repeat split.
      * rewrite S at 1. reflexivity.
      * exact X.
      * apply unmatched_cons; [|exact U]. rewrite <- S. exact E.
Qed.

Lemma search_first (p : regex) (gap t : text) marks rest :
  unmatched p gap t -> exec p [] t = Some (marks, rest) ->
  search p (gap ++ t) = Some (MkMatch gap (between t rest) (pair_up marks) rest).
Proof.
  induction gap as [|c gap IH]; intros U E.
  - simpl app. destruct t; simpl; rewrite E; reflexivity.
  - assert (E0 : exec p [] (c :: gap ++ t) = None).
    { apply (U [] (c :: gap) eq_refl). discriminate. }
    simpl app. cbn [search]. rewrite E0.
    rewrite IH; [reflexivity| |exact E].
    intros a b S N. apply (U (c :: a) b); [rewrite S; reflexivity|exact N].
Qed.

Lemma search_none (p : regex) (s : text) :
  search p s = None -> forall a b, s = a ++ b -> exec p [] b = None.
Proof.
  induction s as [|c s IH]; intros H a b S.
  - destruct a; destruct b; try discriminate.
    simpl in H. destruct (exec p [] []) as [[? ?]|]; [discriminate|reflexivity].
  - simpl in H. destruct (exec p [] (c :: s)) as [[? ?]|] eqn:E; [discriminate|].
    destruct (search p s) eqn:Es; [discriminate|].
    destruct a as [|x a]; simpl in S.
    + subst b. exact E.
    + injection S as _ S. apply (IH eq_refl a b S).
Qed.

End Matching.

(** ** Regular expressions: substitution *)

Section Substitution.

Variables (p : regex) (ps : list piece).
Hypothesis p_consuming : consuming p.

Lemma match_shortens (s : text) (m : rmatch) :
  search p s = Some m ->
  whole m <> [] /\ (List.length (post m) < List.length s)%nat.
Proof.
  intros H. destruct (search_spec _ _ _ H) as [S [[marks [E _]] _]].
  pose proof (exec_consumes _ _ _ _ p_consuming E) as N.
  rewrite between_app in N. split; [exact N|].
  rewrite S, !length_app. destruct (whole m); [contradiction|]. simpl. lia.
Qed.

Lemma sub_fuel_enough (f f' : nat) (s : text) :
  (List.length s < f)%nat -> (List.length s < f')%nat ->
  sub_fuel f p ps s = sub_fuel f' p ps s.
Proof.
  revert f' s; induction f as [|f IH]; intros f' s L L'; [lia|].
  destruct f' as [|f']; [lia|]. cbn [sub_fuel].
  destruct (search p s) as [m|] eqn:H; [|reflexivity].
  destruct (match_shortens s m H) as [N Sh].
  destruct (whole m); [contradiction|].
  rewrite (IH f' (post m)) by lia. reflexivity.
Qed.

Lemma subst_match (s : text) (m : rmatch) :
  search p s = Some m ->
  subst p ps s = pre m ++ expand ps m ++ subst p ps (post m).
Proof.
  intros H. unfold subst at 1. cbn [sub_fuel]. rewrite H.
  destruct (match_shortens s m H) as [N Sh].
  destruct (whole m); [contradiction|].
  unfold subst. rewrite (sub_fuel_enough (List.length s) (S (List.length (post m))))
    by lia. reflexivity.
Qed.

Lemma subst_none (s : text) : search p s = None -> subst p ps s = s.
Proof. intros H. unfold subst. cbn [sub_fuel]. rewrite H. reflexivity. Qed.

(** Every match is replaced by the same text [r] when the template has
    no group reference. *)
Variable r : text.
Hypothesis ps_literal : forall m, expand ps m = r.

Lemma subst_Rewritten (s : text) : Rewritten p r s (subst p ps s).
Proof.
  remember (List.length s) as n eqn:L.
  revert s L; induction n as [n IH] using lt_wf_ind; intros s L.
  destruct (search p s) as [m|] eqn:H.
  - rewrite (subst_match s m H), ps_literal.
    destruct (match_shortens s m H) as [N Sh].
    destruct (search_spec _ _ _ H) as [S [[marks [E _]] U]].
    rewrite S at 1.
    apply (rw_match p r (pre m) (whole m) (post m) marks); [exact U|exact N|exact E|].
    apply (IH (List.length (post m))); [lia|reflexivity].
  - rewrite (subst_none s H). apply rw_none. apply search_none, H.
Qed.

(** When the pattern matches once, only that match is replaced. *)
Lemma subst_once (s : text) (m : rmatch) :
  search p s = Some m -> search p (post m) = None ->
  subst p ps s = pre m ++ r ++ post m.
Proof.
  intros H N. rewrite (subst_match s m H), ps_literal, (subst_none _ N).
  reflexivity.
Qed.

End Substitution.

Section Templates.

(** A replacement without backslash is inserted as it is. *)
Lemma parse_fuel_plain (ng : nat) (s : text) (fuel : nat) :
  ~ In backslash s -> (List.length s <= fuel)%nat ->
  parse_fuel fuel ng s = Ok (map PChr s).
Proof.
  revert fuel; induction s as [|c s IH]; intros fuel N L.
  - destruct fuel; reflexivity.
  - destruct fuel as [|f]; simpl in L; [lia|]. cbn [parse_fuel].
    destruct (chr_eqb c backslash) eqn:E.
    + apply chr_eqb_eq in E. exfalso. apply N. left. exact E.
    + rewrite IH; [reflexivity| |lia]. intros I. apply N. right. exact I.
Qed.

Lemma expand_plain (s : text) (m : rmatch) : expand (map PChr s) m = s.
Proof.
  unfold expand. induction s as [|c s IH]; simpl; [reflexivity|].
  rewrite IH. reflexivity.
Qed.

Lemma sub_plain (p : regex) (repl s : text) :
  ~ In backslash repl ->
  sub p repl s = Ok (subst p (map PChr repl) s).
Proof.
  intros N. unfold sub, parse_template.
  rewrite parse_fuel_plain by (auto; lia). reflexivity.
Qed.

End Templates.

(** ** Matching a field *)

Section Fields.

Lemma exec_lits (t : text) (p : regex) (marks : list text) (s : text) r :
  exec (lits t ++ p) marks s = Some r ->
  exists s', s = t ++ s' /\ exec p marks s' = Some r.
Proof.
  revert s; induction t as [|c t IH]; intros s H.
  - exists s. auto.
  - simpl in H. destruct s as [|x s]; [discriminate|].
    destruct (chr_eqb x c) eqn:E; [|discriminate].
    apply chr_eqb_eq in E. subst x.
    destruct (IH s H) as [s' [-> K]]. exists s'. auto.
Qed.

Lemma lits_exec (t : text) (p : regex) (marks : list text) (s : text) :
  exec (lits t ++ p) marks (t ++ s) = exec p marks s.
Proof.
  induction t as [|c t IH]; [reflexivity|].
  simpl. rewrite chr_eqb_refl. exact IH.
Qed.

(** Past a run of accepted characters the star behaves as at its end,
    when the continuation cannot start on an accepted character. *)
Lemma star_run {R} (a : atom) (k : text -> option R) (w t : text) :
  (forall x r, accepts a x = true -> k (x :: r) = None) ->
  Forall (fun x => accepts a x = true) w ->
  star a k (w ++ t) = star a k t.
Proof.
  intros K F. induction F as [|x w A F IH]; [reflexivity|].
  simpl. rewrite A, IH. destruct (star a k t); [reflexivity|].
  apply K, A.
Qed.

Variable f : field.
Hypothesis f_closes : closes f.

Lemma exec_field (marked : bool) (s : text) marks rest :
  exec (field_regex marked f) [] s = Some (marks, rest) ->
  exists v, occurs f s v rest
            /\ pair_up marks = if marked then [v] else [].
Proof.
  unfold field_regex. intros H.
  apply exec_lits in H as [s0 [-> H]].
  cbn [exec] in H. destruct s0 as [|o s1]; [discriminate|].
  destruct (accepts (f_open f) o) eqn:Ao; [|discriminate].
  assert (Run : forall ms,
             exec (Many1 (NoneOf (f_stop f)) :: mark marked ++
                     One (f_close f) :: lits (f_tail f)) ms s1
             = Some (marks, rest) ->
             exists v c,
               s1 = v ++ c :: f_tail f ++ rest /\ v <> []
               /\ Forall (fun x => mem x (f_stop f) = false) v
               /\ accepts (f_close f) c = true
               /\ marks = rev ((if marked then [c :: f_tail f ++ rest] else [])
                                 ++ ms)).
  { intros ms E. cbn [exec] in E. destruct s1 as [|c1 s2]; [discriminate|].
    destruct (accepts (NoneOf (f_stop f)) c1) eqn:A1; [|discriminate].
    apply star_inv in E as [w [s3 [-> [F E]]]].
    assert (Close : forall ms',
               exec (One (f_close f) :: lits (f_tail f)) ms' s3
               = Some (marks, rest) ->
               exists c, s3 = c :: f_tail f ++ rest
                         /\ accepts (f_close f) c = true /\ marks = rev ms').
    { intros ms' C. cbn [exec] in C. destruct s3 as [|c s4]; [discriminate|].
      destruct (accepts (f_close f) c) eqn:Ac; [|discriminate].
      rewrite <- (app_nil_r (lits (f_tail f))) in C.
      apply exec_lits in C as [s5 [-> C]]. simpl in C. injection C as <- <-.
      exists c. auto. }
    assert (V : Forall (fun x => mem x (f_stop f) = false) (c1 :: w)).
    { constructor.
      - simpl in A1. apply negb_true_iff in A1. exact A1.
      - eapply Forall_impl; [|exact F]. intros x Ax. simpl in Ax.
        apply negb_true_iff in Ax. exact Ax. }
    destruct marked; cbn [mark app exec] in E.
    - destruct (Close _ E) as [c [-> [Ac ->]]].
      exists (c1 :: w), c. repeat split; auto. discriminate.
    - destruct (Close _ E) as [c [-> [Ac ->]]].
      exists (c1 :: w), c. repeat split; auto. discriminate. }
  destruct marked; cbn [mark app exec] in H.
  - destruct (Run _ H) as [v [c [-> [Nv [Fv [Ac ->]]]]]].
    exists v. split; [exists o, c; auto|].
    cbn [app rev pair_up]. rewrite between_app. reflexivity.
  - destruct (Run _ H) as [v [c [-> [Nv [Fv [Ac ->]]]]]].
    exists v. split; [exists o, c; auto|]. reflexivity.
Qed.

Lemma field_exec (marked : bool) (s v rest : text) :
  occurs f s v rest ->
  exists marks, exec (field_regex marked f) [] s = Some (marks, rest)
                /\ pair_up marks = if marked then [v] else [].
Proof.
  intros [o [c [-> [Ao [Nv [Fv Ac]]]]]]. unfold field_regex.
  rewrite lits_exec. cbn [exec]. rewrite Ao.
  destruct v as [|c1 w]; [contradiction|].
  inversion Fv as [|? ? S1 Fw]; subst.
  assert (A1 : accepts (NoneOf (f_stop f)) c1 = true).
  { simpl. rewrite S1. reflexivity. }
  assert (Aw : Forall (fun x => accepts (NoneOf (f_stop f)) x = true) w).
  { eapply Forall_impl; [|exact Fw]. intros x Sx. simpl. rewrite Sx. reflexivity. }
  assert (Nc : accepts (NoneOf (f_stop f)) c = false).
  { simpl. rewrite (f_closes c Ac). reflexivity. }
  assert (Stuck : forall k : text -> option (list text * text),
             (forall t, k t = exec (One (f_close f) :: lits (f_tail f))
                                   (if marked then [t; (c1 :: w) ++ c :: f_tail f ++ rest]
                                    else []) t) ->
             star (NoneOf (f_stop f)) k (w ++ c :: f_tail f ++ rest)
             = k (c :: f_tail f ++ rest)).
  { intros k K. rewrite star_run; [|
      intros x r Ax; rewrite K; cbn [exec];
      destruct (accepts (f_close f) x) eqn:Ex; [|reflexivity];
      apply f_closes in Ex; simpl in Ax; rewrite Ex in Ax; discriminate
      |exact Aw].
    cbn [star]. rewrite Nc. reflexivity. }
  destruct marked; cbn [mark app exec]; rewrite A1;
    (rewrite Stuck by (intros t; reflexivity));
    cbv beta iota; rewrite Ac;
    rewrite <- (app_nil_r (lits (f_tail f))), lits_exec; cbn [exec rev app];
    eexists; (split; [reflexivity|]).
  - cbn [pair_up].
    change (c1 :: w ++ c :: f_tail f ++ rest)
      with ((c1 :: w) ++ c :: f_tail f ++ rest).
    rewrite between_app. reflexivity.
  - reflexivity.
Qed.

End Fields.

(** ** Quoted fields *)

Section ReadBack.

Variable P : ascii -> bool.

Lemma first_split_by (l : text) :
  ~ Forall (fun c => P c = false) l ->
  exists l1 d l2, l = l1 ++ d :: l2 /\ P d = true
                  /\ Forall (fun c => P c = false) l1.
Proof.
  induction l as [|x l IH]; intros N; [destruct N; constructor|].
  destruct (P x) eqn:E.
  - exists [], x, l. auto.
  - destruct IH as [l1 [d [l2 [-> [Pd F]]]]].
    + intros F. apply N. constructor; assumption.
    + exists (x :: l1), d, l2. auto.
Qed.

Lemma first_unique_by (x1 y1 x2 y2 : text) (d1 d2 : ascii) :
  x1 ++ d1 :: y1 = x2 ++ d2 :: y2 ->
  P d1 = true -> P d2 = true ->
  Forall (fun c => P c = false) x1 -> Forall (fun c => P c = false) x2 ->
  x1 = x2 /\ d1 = d2 /\ y1 = y2.
Proof.
  revert x2; induction x1 as [|a x1 IH]; intros [|b x2] E P1 P2 F1 F2;
    simpl in E.
  - injection E as -> ->. auto.
  - injection E as -> _. inversion F2; congruence.
  - injection E as -> _. inversion F1; congruence.
  - injection E as -> E. inversion F1; inversion F2; subst.
    destruct (IH x2 E) as [-> [-> ->]]; auto.
Qed.

Lemma Forall_dec_by (l : text) :
  Forall (fun c => P c = false) l \/ ~ Forall (fun c => P c = false) l.
Proof.
  induction l as [|x l [F|N]].
  - left; constructor.
  - destruct (P x) eqn:E.
    + right. intros G. inversion G; congruence.
    + left. constructor; assumption.
  - right. intros G. inversion G; auto.
Qed.

End ReadBack.

Section QuotedFields.

Variable f : field.
Hypothesis f_quoted : quoted f.

Lemma quoted_closes : closes f.
Proof.
  destruct f_quoted as [_ [_ [_ [_ C]]]]. intros c A. rewrite C in A. exact A.
Qed.

(** An occurrence of a quoted field, spelled out. *)
Lemma occurs_quoted (s v rest : text) :
  occurs f s v rest
  <-> exists o c,
      s = f_name f ++ o :: v ++ c :: rest
      /\ stops f o = true /\ v <> []
      /\ Forall (fun x => stops f x = false) v /\ stops f c = true.
Proof.
  destruct f_quoted as [T [_ [_ [O C]]]]. unfold occurs. rewrite T.
  split; intros [o [c [E [Ao [Nv [Fv Ac]]]]]]; exists o, c;
    rewrite ?O, ?C in *; cbn [app] in *; auto.
Qed.

(** Whether the field occurs at a position before an opening of the field
    does not depend on what follows that opening. *)
Lemma occurs_before_quoted (b r r' : text) (o o' : ascii) :
  b <> [] -> stops f o = true -> stops f o' = true ->
  (exists v rest, occurs f (b ++ f_name f ++ o' :: r') v rest) ->
  exists v rest, occurs f (b ++ f_name f ++ o :: r) v rest.
Proof.
  destruct f_quoted as [_ [Nn [Fn _]]].
  intros Nb So So' [v [rest O]].
  apply occurs_quoted in O as [o1 [c1 [E [So1 [Nv [Fv Sc1]]]]]].
  destruct (Forall_dec_by (stops f) b) as [Fb|Nd].
  - exfalso. rewrite app_assoc in E.
    assert (Fbn : Forall (fun c => stops f c = false) (b ++ f_name f)).
    { apply Forall_app. auto. }
    destruct (first_unique_by (stops f) _ _ _ _ _ _ E So' So1 Fbn Fn) as [E1 _].
    apply (f_equal (@List.length ascii)) in E1. rewrite length_app in E1.
    destruct b; [contradiction|]. simpl in E1. lia.
  - destruct (first_split_by (stops f) b Nd) as [b1 [q [b2 [-> [Sq F1]]]]].
    flatten_in E.
    destruct (first_unique_by (stops f) _ _ _ _ _ _ E Sq So1 F1 Fn)
      as [-> [-> E2]].
    destruct (Forall_dec_by (stops f) b2) as [F2|N2].
    + exists (b2 ++ f_name f), r. apply occurs_quoted. exists o1, o.
      repeat split; auto.
      * flatten. reflexivity.
      * intros Z. apply app_eq_nil in Z as [_ Z]. contradiction.
      * apply Forall_app. auto.
    + destruct (first_split_by (stops f) b2 N2) as [b3 [q' [b4 [-> [Sq' F3]]]]].
      flatten_in E2.
      destruct (first_unique_by (stops f) _ _ _ _ _ _ E2 Sq' Sc1 F3 Fv)
        as [-> [-> _]].
      exists v, (b4 ++ f_name f ++ o :: r). apply occurs_quoted.
      exists o1, c1. repeat split; auto. flatten. reflexivity.
Qed.

(** A pattern [pw] that matches only where the field occurs rewrites the
    place found by the reader; the reader then finds the new value. *)
Lemma reread_after_write (pw : regex) (content : text) (m : rmatch)
      (o c : ascii) (v t rest' : text) (marks : list text) :
  consuming pw ->
  (forall s ms rs, exec pw [] s = Some (ms, rs) ->
                   exists v' rest, occurs f s v' rest) ->
  search (field_regex true f) content = Some m ->
  exec pw [] (whole m ++ post m) = Some (marks, rest') ->
  stops f o = true -> stops f c = true ->
  v <> [] -> Forall (fun x => stops f x = false) v ->
  exists m',
    search (field_regex true f)
           (subst pw (map PChr (f_name f ++ o :: v ++ c :: t)) content) = Some m'
    /\ groups m' = [v].
Proof.
  intros C W1 H W2 So Sc Nv Fv.
  destruct (search_spec _ _ _ H) as [S [[marks0 [E G]] U]].
  destruct (exec_field f true _ _ _ E) as [v0 [O0 _]].
  apply occurs_quoted in O0 as [o0 [c0 [W0 [So0 _]]]].
  assert (U0 : unmatched pw (pre m) (whole m ++ post m)).
  { intros a b Sa Nb.
    destruct (exec pw [] (b ++ whole m ++ post m)) as [[ms rs]|] eqn:X;
      [|reflexivity].
    exfalso. destruct (W1 _ _ _ X) as [v' [rest O]].
    destruct (field_exec f quoted_closes true _ _ _ O) as [mk [Y _]].
    rewrite (U a b Sa Nb) in Y. discriminate Y. }
  pose proof (search_first pw _ _ _ _ U0 W2) as H0. rewrite <- S in H0.
  rewrite (subst_match pw _ C content _ H0). cbn [pre post].
  rewrite expand_plain.
  set (tail := subst pw (map PChr (f_name f ++ o :: v ++ c :: t)) rest').
  assert (O1 : occurs f ((f_name f ++ o :: v ++ c :: t) ++ tail) v (t ++ tail)).
  { apply occurs_quoted. exists o, c. repeat split; auto. flatten. reflexivity. }
  destruct (field_exec f quoted_closes true _ _ _ O1) as [marks1 [E1 G1]].
  assert (U1 : unmatched (field_regex true f) (pre m)
                 ((f_name f ++ o :: v ++ c :: t) ++ tail)).
  { intros a b Sa Nb.
    destruct (exec (field_regex true f) []
                (b ++ (f_name f ++ o :: v ++ c :: t) ++ tail))
      as [[mk rs]|] eqn:X; [|reflexivity].
    exfalso.
    destruct (exec_field f true _ _ _ X) as [v' [O _]].
    flatten_in O.
    assert (Y : exists v'' rest'',
               occurs f (b ++ f_name f ++ o0 :: v0 ++ c0 :: post m) v'' rest'').
    { apply (occurs_before_quoted b _ (v ++ c :: t ++ tail) o0 o Nb So0 So).
      exists v', rs. exact O. }
    destruct Y as [v'' [rest'' Y]].
    destruct (field_exec f quoted_closes true _ _ _ Y) as [mk' [Z _]].
    pose proof (U a b Sa Nb) as K. rewrite W0 in K. congruence. }
  rewrite (search_first (field_regex true f) _ _ _ _ U1 E1).
  eexists. split; [reflexivity|]. exact G1.
Qed.

End QuotedFields.

(** ** Reading in text mode *)

Section Newlines.

Lemma universal_plain_cons (c : ascii) (r : text) :
  c <> cr -> universal (c :: r) = c :: universal r.
Proof.
  intros N. cbn [universal]. apply chr_eqb_neq in N. rewrite N. reflexivity.
Qed.

Lemma universal_cr_other (y : ascii) (r : text) :
  y <> lf -> universal (cr :: y :: r) = lf :: universal (y :: r).
Proof.
  intros N. apply chr_eqb_neq in N.
  change (universal (cr :: y :: r))
    with (lf :: (if chr_eqb y lf then universal r else universal (y :: r))).
  rewrite N. reflexivity.
Qed.

(** One step of the translation: the first character, or a CR with the LF
    after it, gives one character; [r'] is what is left. *)
Lemma universal_step (c : ascii) (r : text) :
  exists used r',
    c :: r = used ++ r'
    /\ (List.length r' <= List.length r)%nat
    /\ ((c <> cr /\ universal (c :: r) = c :: universal r')
        \/ (c = cr /\ universal (c :: r) = lf :: universal r')).
Proof.
  destruct (ascii_dec c cr) as [->|N].
  - destruct r as [|c2 r2].
    + exists [cr], []. repeat split; auto.
    + destruct (ascii_dec c2 lf) as [->|N2].
      * exists [cr; lf], r2. repeat split; auto. simpl. lia.
      * exists [cr], (c2 :: r2). repeat split; auto.
        right. split; [reflexivity|]. apply universal_cr_other, N2.
  - exists [c], r. repeat split; auto.
    left. split; [exact N|]. apply universal_plain_cons, N.
Qed.

(** Induction along the steps of the translation. *)
Lemma universal_ind (Q : text -> Prop) :
  Q [] ->
  (forall c r used r',
      c :: r = used ++ r' -> Q r' ->
      (c <> cr /\ universal (c :: r) = c :: universal r')
      \/ (c = cr /\ universal (c :: r) = lf :: universal r') ->
      Q (c :: r)) ->
  forall s, Q s.
Proof.
  intros Qn Qs s. remember (List.length s) as n eqn:L.
  revert s L; induction n as [n IH] using lt_wf_ind; intros s L.
  destruct s as [|c r]; [exact Qn|].
  destruct (universal_step c r) as [used [r' [E [Le U]]]].
  apply (Qs c r used r' E); [|exact U].
  apply (IH (List.length r')); [subst n; simpl; lia|reflexivity].
Qed.

Lemma universal_Forall (P : ascii -> Prop) (s : text) :
  P lf -> Forall P s -> Forall P (universal s).
Proof.
  intros Plf. induction s as [|c r used r' E IH U] using universal_ind;
    intros F; [constructor|].
  assert (Fc : P c) by (inversion F; assumption).
  rewrite E in F. apply Forall_app in F as [_ Fr].
  destruct U as [[_ ->]|[_ ->]]; constructor; auto.
Qed.

(** The translation leaves no carriage return. *)
Lemma universal_no_cr (s : text) : Forall (fun x => x <> cr) (universal s).
Proof.
  induction s as [|c r used r' E IH U] using universal_ind; [constructor|].
  destruct U as [[N ->]|[_ ->]]; constructor; auto. discriminate.
Qed.

(** A text without carriage return is read as it is. *)
Lemma universal_plain (s : text) :
  Forall (fun x => x <> cr) s -> universal s = s.
Proof.
  induction 1 as [|c r N F IH]; [reflexivity|].
  rewrite universal_plain_cons by exact N. rewrite IH. reflexivity.
Qed.

Lemma universal_In (x : ascii) (s : text) :
  In x (universal s) -> x <> lf -> In x s.
Proof.
  induction s as [|c r used r' E IH U] using universal_ind; intros I N;
    [destruct I|].
  assert (Ir : In x r' -> In x (c :: r)).
  { intros J. rewrite E. apply in_or_app. right. exact J. }
  destruct U as [[_ U]|[_ U]]; rewrite U in I; destruct I as [<-|I]; auto.
  - left; reflexivity.
  - contradiction.
Qed.

Lemma universal_nonempty (s : text) : s <> [] -> universal s <> [].
Proof.
  destruct s as [|c r]; [contradiction|]. intros _.
  destruct (universal_step c r) as [used [r' [_ [_ [[_ ->]|[_ ->]]]]]];
    discriminate.
Qed.

(** The translation works piece by piece, except between a CR and the LF
    after it. *)
Lemma universal_app (a b : text) (c : ascii) :
  c <> lf -> universal (a ++ c :: b) = universal a ++ universal (c :: b).
Proof.
  intros N. remember (List.length a) as n eqn:L.
  revert a L; induction n as [n IH] using lt_wf_ind; intros a L.
  destruct a as [|x a]; [reflexivity|].
  destruct (ascii_dec x cr) as [->|Nx].
  - destruct a as [|y a].
    + cbn [app]. rewrite (universal_cr_other c b N). reflexivity.
    + destruct (ascii_dec y lf) as [->|Ny].
      * change (universal ((cr :: lf :: a) ++ c :: b))
          with (lf :: universal (a ++ c :: b)).
        rewrite (IH (List.length a)); [reflexivity|subst n; simpl; lia|reflexivity].
      * change ((cr :: y :: a) ++ c :: b) with (cr :: y :: (a ++ c :: b)).
        rewrite !(universal_cr_other y) by exact Ny.
        change (y :: a ++ c :: b) with ((y :: a) ++ c :: b).
        rewrite (IH (List.length (y :: a))); [reflexivity|subst n; simpl; lia|reflexivity].
  - cbn [app]. rewrite !universal_plain_cons by exact Nx.
    rewrite (IH (List.length a)); [reflexivity|subst n; simpl; lia|reflexivity].
Qed.

(** Every position of the text read is a position of the file. *)
Lemma universal_suffix (s a' b' : text) :
  universal s = a' ++ b' -> exists a b, s = a ++ b /\ universal b = b'.
Proof.
  revert a'; induction s as [|c r used r' E IH U] using universal_ind;
    intros a' H.
  - exists [], []. destruct a'; [|discriminate H]. auto.
  - destruct a' as [|x a''].
    + exists [], (c :: r). auto.
    + assert (T : universal r' = a'' ++ b').
      { destruct U as [[_ U]|[_ U]]; rewrite U in H; injection H as _ H; exact H. }
      destruct (IH _ T) as [a [b [-> Ub]]].
      exists (used ++ a), b. rewrite E, app_assoc. auto.
Qed.

(** A literal free of newlines at the start of the text read is at the
    start of the file. *)
Lemma universal_prefix (t b x : text) :
  Forall (fun c => c <> cr /\ c <> lf) t ->
  universal b = t ++ x -> exists b1, b = t ++ b1 /\ universal b1 = x.
Proof.
  intros F. revert b; induction F as [|c t [Ncr Nlf] F IH]; intros b H.
  - exists b. auto.
  - destruct b as [|c0 r]; [discriminate H|].
    destruct (universal_step c0 r) as [used [r' [E [_ U]]]].
    destruct (ascii_dec c0 cr) as [->|N0].
    + destruct U as [[X _]|[_ U]]; [contradiction|].
      rewrite U in H. injection H as H _. symmetry in H. contradiction.
    + rewrite universal_plain_cons in H by exact N0.
      injection H as -> H. destruct (IH _ H) as [b1 [-> U1]].
      exists b1. auto.
Qed.

Lemma universal_literal (t x : text) :
  Forall (fun c => c <> cr /\ c <> lf) t ->
  universal (t ++ x) = t ++ universal x.
Proof.
  induction 1 as [|c t [Ncr _] F IH]; [reflexivity|].
  cbn [app]. rewrite universal_plain_cons by exact Ncr. rewrite IH. reflexivity.
Qed.

End Newlines.

Section FieldsAndNewlines.

Variable f : field.
Hypothesis f_quoted : quoted f.
Hypothesis f_plain : newline_free f.

Lemma stop_not_newline (c : ascii) : stops f c = true -> c <> cr /\ c <> lf.
Proof. destruct f_plain as [_ S]. apply S. Qed.

Lemma newline_not_stop : stops f lf = false.
Proof.
  destruct (stops f lf) eqn:E; [|reflexivity].
  destruct (stop_not_newline lf E) as [_ N]. contradiction.
Qed.

(** The text read of a field: the field of the text read. *)
Lemma universal_field (gap v rest : text) (o c : ascii) :
  stops f o = true -> stops f c = true ->
  universal (gap ++ f_name f ++ o :: v ++ c :: rest)
  = universal gap ++ f_name f ++ o :: universal v ++ c :: universal rest.
Proof.
  intros So Sc. destruct f_plain as [Fn _].
  destruct (stop_not_newline o So) as [Ocr Olf].
  destruct (stop_not_newline c Sc) as [Ccr Clf].
  assert (Tail : universal (f_name f ++ o :: v ++ c :: rest)
                 = f_name f ++ o :: universal v ++ c :: universal rest).
  { rewrite (universal_literal _ _ Fn).
    rewrite (universal_plain_cons o _ Ocr).
    rewrite (universal_app v rest c Clf).
    rewrite (universal_plain_cons c _ Ccr). reflexivity. }
  destruct (f_name f) as [|h t] eqn:Nm.
  - cbn [app] in *. rewrite (universal_app gap _ o Olf), Tail. reflexivity.
  - inversion Fn as [|? ? [_ Hlf] _]; subst.
    cbn [app] in *. rewrite (universal_app gap _ h Hlf), Tail. reflexivity.
Qed.

(** Where the field occurs in the text read, it occurs in the file. *)
Lemma occurs_of_universal (b v' rest' : text) :
  occurs f (universal b) v' rest' -> exists v rest, occurs f b v rest.
Proof.
  intros O. destruct f_plain as [Fn _].
  apply (occurs_quoted f f_quoted) in O as [o [c [E [So [Nv [Fv Sc]]]]]].
  destruct (universal_prefix _ _ _ Fn E) as [b1 [-> E1]].
  destruct b1 as [|o1 b2]; [discriminate E1|].
  destruct (stop_not_newline o So) as [Ocr Olf].
  assert (O1 : o1 = o /\ universal b2 = v' ++ c :: rest').
  { destruct (ascii_dec o1 cr) as [->|N1].
    - destruct (universal_step cr b2) as [u [r' [_ [_ [[X _]|[_ U]]]]]];
        [contradiction|].
      rewrite U in E1. injection E1 as E1 _. symmetry in E1. contradiction.
    - rewrite universal_plain_cons in E1 by exact N1. injection E1 as -> E1. auto. }
  destruct O1 as [-> E2].
  destruct (stop_not_newline c Sc) as [Ccr Clf].
  assert (Ic : In c b2).
  { apply universal_In; [|exact Clf]. rewrite E2. apply in_or_app. right. left.
    reflexivity. }
  assert (Nf : ~ Forall (fun x => stops f x = false) b2).
  { intros F. rewrite Forall_forall in F. specialize (F c Ic). congruence. }
  destruct (first_split_by (stops f) b2 Nf) as [v [q [rest [-> [Sq Fq]]]]].
  destruct (stop_not_newline q Sq) as [Qcr Qlf].
  rewrite (universal_app v rest q Qlf), (universal_plain_cons q _ Qcr) in E2.
  assert (Fu : Forall (fun x => stops f x = false) (universal v)).
  { apply universal_Forall; [apply newline_not_stop|exact Fq]. }
  destruct (first_unique_by (stops f) _ _ _ _ _ _ E2 Sq Sc Fu Fv) as [Ev [-> _]].
  exists v, rest. apply (occurs_quoted f f_quoted). exists o, c.
  repeat split; auto. intros ->. cbn [universal] in Ev. symmetry in Ev. contradiction.
Qed.

(** A pattern that fits nowhere in the file fits nowhere in the text
    read. *)
Lemma search_universal_none (content : text) :
  search (field_regex true f) content = None ->
  search (field_regex true f) (universal content) = None.
Proof.
  intros H. destruct (search (field_regex true f) (universal content)) as [m|] eqn:S;
    [|reflexivity].
  exfalso. destruct (search_spec _ _ _ S) as [D [[marks [E _]] _]].
  destruct (universal_suffix _ _ _ D) as [a [b [C U]]].
  rewrite <- U in E.
  destruct (exec_field f true _ _ _ E) as [v' [O _]].
  destruct (occurs_of_universal _ _ _ O) as [v [rest O']].
  destruct (field_exec f (quoted_closes f f_quoted) true _ _ _ O') as [mk [X _]].
  rewrite (search_none _ _ H a b C) in X. discriminate X.
Qed.

End FieldsAndNewlines.

(** ** The setup.py field *)

Section SetupField.

Lemma closes_setup : closes setup_f.
Proof. intros c A. simpl in *. rewrite A. reflexivity. Qed.

Lemma closes_init : closes init_f.
Proof. intros c A. exact A. Qed.

Lemma quoted_init : quoted init_f.
Proof.
  unfold quoted, stops. cbn [init_f f_tail f_name f_stop f_open f_close accepts].
  repeat split; auto; try discriminate.
  repeat constructor.
Qed.

Lemma quoted_setup : quoted setup_f.
Proof.
  unfold quoted, stops. cbn [setup_f f_tail f_name f_stop f_open f_close accepts].
  repeat split; auto; try discriminate.
  - repeat constructor.
  - intros c. simpl. rewrite orb_false_r. reflexivity.
  - intros c. simpl. rewrite orb_false_r. reflexivity.
Qed.

Lemma newline_free_init : newline_free init_f.
Proof.
  split.
  - cbn [init_f f_name]. repeat constructor; discriminate.
  - intros c. unfold stops. simpl.
    rewrite orb_false_r. intros H. apply orb_true_iff in H.
    destruct H as [H|H]; apply chr_eqb_eq in H; subst c; split; discriminate.
Qed.

Lemma newline_free_setup : newline_free setup_f.
Proof.
  split.
  - cbn [setup_f f_name]. repeat constructor; discriminate.
  - intros c. unfold stops. simpl.
    rewrite orb_false_r. intros H.
    apply chr_eqb_eq in H; subst c; split; discriminate.
Qed.

Lemma setup_read_shape : p_setup_read = field_regex true setup_f.
Proof. reflexivity. Qed.

Lemma setup_sync_shape : p_setup_sync = field_regex false setup_f.
Proof. reflexivity. Qed.

Lemma init_read_shape : p_init_read = field_regex true init_f.
Proof. reflexivity. Qed.

Lemma init_write_shape : p_init_write = field_regex false init_f.
Proof. reflexivity. Qed.

Lemma setup_write_shape : p_setup_write = field_regex false setup_comma_f.
Proof. reflexivity. Qed.

Lemma not_stop_dq (v : text) :
  Forall (fun x => mem x [dq] = false) v <-> ~ In dq v.
Proof.
  rewrite Forall_forall. split.
  - intros F I. specialize (F dq I). discriminate F.
  - intros N x I. simpl. rewrite orb_false_r. apply chr_eqb_neq.
    intros ->. exact (N I).
Qed.

(** An occurrence of the setup.py field, spelled out. *)
Lemma occurs_setup (s v rest : text) :
  occurs setup_f s v rest
  <-> s = setup_field v ++ rest /\ v <> [] /\ ~ In dq v.
Proof.
  unfold occurs, setup_field. cbn [f_name f_open f_stop f_close f_tail setup_f accepts].
  split.
  - intros [o [c [-> [Ao [Nv [Fv Ac]]]]]].
    apply chr_eqb_eq in Ao, Ac. subst o c.
    repeat split; [|exact Nv|apply not_stop_dq, Fv].
    flatten. reflexivity.
  - intros [-> [Nv Fv]]. exists dq, dq.
    repeat split; [|exact Nv|apply not_stop_dq, Fv].
    flatten. reflexivity.
Qed.

(** The first occurrence of a character splits a text in one way only. *)
Lemma first_split (d : ascii) (l : text) :
  In d l -> exists l1 l2, l = l1 ++ d :: l2 /\ ~ In d l1.
Proof.
  induction l as [|x l IH]; intros I; [contradiction|].
  destruct (ascii_dec x d) as [->|N].
  - exists [], l. auto.
  - destruct I as [E|I]; [contradiction|].
    destruct (IH I) as [l1 [l2 [-> N1]]].
    exists (x :: l1), l2. split; [reflexivity|].
    intros [E|I1]; [contradiction|exact (N1 I1)].
Qed.

Lemma first_unique (d : ascii) (x1 y1 x2 y2 : text) :
  x1 ++ d :: y1 = x2 ++ d :: y2 -> ~ In d x1 -> ~ In d x2 ->
  x1 = x2 /\ y1 = y2.
Proof.
  revert x2; induction x1 as [|a x1 IH]; intros [|b x2] E N1 N2; simpl in E.
  - injection E as E. auto.
  - injection E as E _. exfalso. apply N2. left. symmetry. exact E.
  - injection E as E _. exfalso. apply N1. left. exact E.
  - injection E as -> E.
    destruct (IH x2 E) as [-> ->]; [| |auto].
    + intros I. apply N1. right. exact I.
    + intros I. apply N2. right. exact I.
Qed.

Lemma name_no_dq : ~ In dq (lit "version=").
Proof. simpl. intuition discriminate. Qed.

(** Whether the field occurs at a position before another occurrence of
    its opening [version=Q] does not depend on what follows that
    opening. *)
Lemma occurs_before_opening (b r r' : text) :
  b <> [] ->
  (exists v rest, occurs setup_f (b ++ lit "version=" ++ dq :: r') v rest) ->
  exists v rest, occurs setup_f (b ++ lit "version=" ++ dq :: r) v rest.
Proof.
  intros Nb [v [rest O]]. apply occurs_setup in O as [E [Nv Fv]].
  unfold setup_field in E. flatten_in E.
  destruct (in_dec ascii_dec dq b) as [Ib|Nd].
  - destruct (first_split dq b Ib) as [b1 [b2 [-> N1]]].
    flatten_in E.
    destruct (first_unique dq _ _ _ _ E N1 name_no_dq) as [-> E2].
    destruct (in_dec ascii_dec dq b2) as [I2|N2].
    + destruct (first_split dq b2 I2) as [b3 [b4 [-> N3]]].
      flatten_in E2.
      destruct (first_unique dq _ _ _ _ E2 N3 Fv) as [-> _].
      exists v, (b4 ++ lit "version=" ++ dq :: r). apply occurs_setup.
      repeat split; [|exact Nv|exact Fv].
      unfold setup_field. flatten. reflexivity.
    + exists (b2 ++ lit "version="), r. apply occurs_setup. repeat split.
      * unfold setup_field. flatten. reflexivity.
      * intros Z. apply app_eq_nil in Z as [_ Z]. discriminate Z.
      * intros I. apply in_app_or in I as [I|I]; [exact (N2 I)|exact (name_no_dq I)].
  - exfalso. rewrite app_assoc in E.
    assert (Nbn : ~ In dq (b ++ lit "version=")).
    { intros I. apply in_app_or in I as [I|I]; [exact (Nd I)|exact (name_no_dq I)]. }
    destruct (first_unique dq _ _ _ _ E Nbn name_no_dq) as [E1 _].
    apply (f_equal (@List.length ascii)) in E1. rewrite length_app in E1.
    destruct b; [contradiction|]. simpl in E1. lia.
Qed.

Lemma exec_setup_iff (marked : bool) (s : text) :
  (exists marks rest, exec (field_regex marked setup_f) [] s = Some (marks, rest))
  <-> exists v rest, occurs setup_f s v rest.
Proof.
  split.
  - intros [marks [rest E]].
    destruct (exec_field setup_f marked s marks rest E) as [v [O _]].
    exists v, rest. exact O.
  - intros [v [rest O]].
    destruct (field_exec setup_f closes_setup marked s v rest O) as [marks [E _]].
    exists marks, rest. exact E.
Qed.

Lemma exec_setup_none (marked marked' : bool) (s : text) :
  exec (field_regex marked setup_f) [] s = None ->
  exec (field_regex marked' setup_f) [] s = None.
Proof.
  intros N. destruct (exec (field_regex marked' setup_f) [] s) as [[marks rest]|] eqn:E;
    [|reflexivity].
  assert (X : exists marks rest,
             exec (field_regex marked setup_f) [] s = Some (marks, rest)).
  { apply exec_setup_iff. apply (exec_setup_iff marked'). eauto. }
  destruct X as [? [? X]]. congruence.
Qed.

(** After the synchronizer has rewritten setup.py with a version [v]
    that has no backslash, the reader finds [v]. *)
Lemma reread_after_sync (content v : text) (m : rmatch) :
  search p_setup_read content = Some m ->
  v <> [] -> ~ In dq v ->
  exists m',
    search p_setup_read
           (subst p_setup_sync (map PChr (setup_field v)) content) = Some m'
    /\ groups m' = [v].
Proof.
  intros H Nv Fv.
  destruct (search_spec _ _ _ H) as [S [[marks [E G]] U]].
  rewrite setup_read_shape in E, U.
  destruct (exec_field setup_f true _ _ _ E) as [v0 [O0 _]].
  (* the same match, found by the pattern of the rewrite *)
  destruct (field_exec setup_f closes_setup false _ _ _ O0) as [marks0 [E0 _]].
  assert (U0 : unmatched p_setup_sync (pre m) (whole m ++ post m)).
  { intros a b Sa Nb. apply (exec_setup_none true false). apply (U a b Sa Nb). }
  pose proof (search_first p_setup_sync _ _ _ _ U0 E0) as H0.
  rewrite <- S in H0.
  assert (C : consuming p_setup_sync) by (eexists; eexists; reflexivity).
  rewrite (subst_match p_setup_sync _ C content _ H0).
  cbn [pre post]. rewrite expand_plain.
  set (tail := subst p_setup_sync (map PChr (setup_field v)) (post m)).
  (* the reader on the new content *)
  assert (O1 : occurs setup_f (setup_field v ++ tail) v tail).
  { apply occurs_setup. auto. }
  destruct (field_exec setup_f closes_setup true _ _ _ O1) as [marks1 [E1 G1]].
  assert (U1 : unmatched p_setup_read (pre m) (setup_field v ++ tail)).
  { intros a b Sa Nb. rewrite setup_read_shape.
    destruct (exec (field_regex true setup_f) [] (b ++ setup_field v ++ tail))
      as [[mk rs]|] eqn:X; [|reflexivity].
    exfalso.
    assert (Y : exists v' rest',
               occurs setup_f (b ++ lit "version=" ++ dq :: v ++ dq :: tail) v' rest').
    { apply (exec_setup_iff true). exists mk, rs. rewrite <- X.
      unfold setup_field. flatten. reflexivity. }
    apply occurs_setup in O0 as [W0 _].
    apply (occurs_before_opening b (v0 ++ dq :: post m)) in Y; [|exact Nb].
    apply (exec_setup_iff true) in Y as [mk' [rs' Y]].
    pose proof (U a b Sa Nb) as Z. rewrite W0 in Z.
    unfold setup_field in Z. flatten_in Z. congruence. }
  rewrite <- setup_read_shape in E1.
  rewrite (search_first p_setup_read _ _ _ _ U1 E1).
  eexists. split; [reflexivity|]. exact G1.
Qed.

End SetupField.

(** ** Running the script *)

Section Running.

Lemma get_current_version_run (w : world) :
  get_current_version w = (read_init_version (universal (init_py w)), w).
Proof.
  unfold get_current_version, read_init_version, found, bind, read_init, group1.
  destruct (search p_init_read (universal (init_py w))) as [m|]; [|reflexivity].
  destruct (group m 1); reflexivity.
Qed.

Lemma get_setup_version_run (w : world) :
  get_setup_version w = (read_setup_version (universal (setup_py w)), w).
Proof.
  unfold get_setup_version, read_setup_version, found, bind, read_setup, group1.
  destruct (search p_setup_read (universal (setup_py w))) as [m|]; [|reflexivity].
  destruct (group m 1); reflexivity.
Qed.

(** A template error is the only exception of [re.sub]. *)
Lemma parse_escape_raises (ng : nat) (c : ascii) (r : text) (e : exn) :
  parse_escape ng c r = Raise e -> forall msg, e <> ValueError msg.
Proof.
  unfold parse_escape, reference. intros H msg ->.
  repeat match type of H with
         | (if ?b then _ else _) = _ => destruct b
         | match ?x with _ => _ end = _ => destruct x
         | (let _ := _ in _) = _ => cbv zeta in H
         end; discriminate H.
Qed.

Lemma parse_fuel_raises (fuel ng : nat) (s : text) (e : exn) :
  parse_fuel fuel ng s = Raise e -> forall msg, e <> ValueError msg.
Proof.
  revert s; induction fuel as [|f IH]; intros s H msg E; subst e.
  - destruct s; discriminate H.
  - destruct s as [|c r]; [discriminate H|]. cbn [parse_fuel] in H.
    destruct (chr_eqb c backslash).
    + destruct r as [|x r']; [discriminate H|].
      destruct (parse_escape ng x r') as [[ps rest]|x'] eqn:P.
      * destruct (parse_fuel f ng rest) eqn:Q; [discriminate H|].
        cbn [rbind] in H. injection H as ->. exact (IH _ Q msg eq_refl).
      * injection H as ->. exact (parse_escape_raises _ _ _ _ P msg eq_refl).
    + destruct (parse_fuel f ng r) eqn:Q; [discriminate H|].
      cbn [rbind] in H. injection H as ->. exact (IH _ Q msg eq_refl).
Qed.

(** No exception of [re.sub] is a [ValueError]. *)
Lemma sub_raises (p : regex) (repl s : text) (e : exn) :
  sub p repl s = Raise e -> forall msg, e <> ValueError msg.
Proof.
  unfold sub, parse_template.
  destruct (parse_fuel (List.length repl) (ngroups p) repl) eqn:P; [discriminate|].
  intros H; injection H as <-. apply (parse_fuel_raises _ _ _ _ P).
Qed.

Lemma sync_versions_run (w : world) :
  sync_versions w =
  match read_init_version (universal (init_py w)) with
  | Raise e => (Raise e, w)
  | Ok v =>
      match read_setup_version (universal (setup_py w)) with
      | Ok sv =>
          if negb (text_eqb v sv) then
            let w1 := say w [lit "Version mismatch detected:";
                             lit "  __init__.py: " ++ v;
                             lit "  setup.py:    " ++ sv;
                             lit "Syncing setup.py to match __init__.py..."] in
            match sub p_setup_sync (setup_field v) (universal (setup_py w)) with
            | Ok content =>
                (Ok true,
                 MkWorld (init_py w) content
                   (stdout w1 ++
                    [check_mark ++ lit " Updated setup.py version to " ++ v]))
            | Raise e => (Raise e, w1)
            end
          else
            (Ok false,
             say w [check_mark ++ lit " Versions already in sync: " ++ v])
      | Raise (ValueError msg) => (Ok false, say w [lit "Warning: " ++ msg])
      | Raise e => (Raise e, w)
      end
  end.
Proof.
  unfold sync_versions. unfold bind at 1. rewrite get_current_version_run.
  destruct (read_init_version (universal (init_py w))) as [v|e]; [|reflexivity].
  unfold try_ValueError. unfold bind at 1. rewrite get_setup_version_run.
  destruct (read_setup_version (universal (setup_py w))) as [sv|e].
  - destruct (negb (text_eqb v sv)).
    + cbv [bind print read_setup lift write_setup ret say
             init_py setup_py stdout].
      destruct w as [i s o].
      destruct (sub p_setup_sync (setup_field v) (universal s)) as [c|e] eqn:E.
      * rewrite <- !app_assoc. reflexivity.
      * pose proof (sub_raises _ _ _ _ E) as NV.
        destruct e as [msg| | | |]; rewrite <- ?app_assoc; try reflexivity.
        destruct (NV msg eq_refl).
    + destruct w; reflexivity.
  - destruct e; destruct w; reflexivity.
Qed.

End Running.

Section Readers.

(** A match of a read pattern has its group 1: the value of the field. *)
Lemma search_field (f : field) (content : text) (m : rmatch) :
  search (field_regex true f) content = Some m ->
  exists v, group m 1 = Some v /\ occurs f (whole m ++ post m) v (post m).
Proof.
  intros H. destruct (search_spec _ _ _ H) as [_ [[marks [E G]] _]].
  destruct (exec_field f true _ _ _ E) as [v [O P]].
  exists v. split; [|exact O]. cbn [group]. rewrite G, P. reflexivity.
Qed.

Lemma found_field (f : field) (content : text) (msg : string) :
  (exists v m, found (search (field_regex true f) content) msg = Ok v
               /\ search (field_regex true f) content = Some m
               /\ occurs f (whole m ++ post m) v (post m))
  \/ (found (search (field_regex true f) content) msg = Raise (ValueError (lit msg))
      /\ search (field_regex true f) content = None).
Proof.
  destruct (search (field_regex true f) content) as [m|] eqn:H.
  - left. destruct (search_field f content m H) as [v [G O]].
    exists v, m. cbn [found]. rewrite G. auto.
  - right. auto.
Qed.

(** The version read from __init__.py is not empty and has no double
    quote. *)
Lemma init_version_shape (content v : text) :
  read_init_version content = Ok v -> v <> [] /\ ~ In dq v.
Proof.
  unfold read_init_version. rewrite init_read_shape. intros R.
  destruct (found_field init_f content "Could not find version in __init__.py")
    as [[v' [m [F [_ O]]]]|[F _]]; [|congruence].
  rewrite R in F. injection F as <-.
  destruct O as [o [c [_ [_ [Nv [Fv _]]]]]]. split; [exact Nv|].
  intros I. rewrite Forall_forall in Fv. specialize (Fv dq I). discriminate Fv.
Qed.

Lemma setup_version_cases (content : text) :
  (exists sv m, read_setup_version content = Ok sv
                /\ search p_setup_read content = Some m)
  \/ (read_setup_version content
      = Raise (ValueError (lit "Could not find version in setup.py"))).
Proof.
  unfold read_setup_version. rewrite setup_read_shape.
  destruct (found_field setup_f content "Could not find version in setup.py")
    as [[v [m [F [S _]]]]|[F _]]; [left; eauto|right; exact F].
Qed.

(** The version that a reader returns is made of characters of the
    content. *)
Lemma found_chars (P : ascii -> Prop) (f : field) (content v : text)
      (msg : string) :
  found (search (field_regex true f) content) msg = Ok v ->
  Forall P content -> Forall P v.
Proof.
  intros R F.
  destruct (found_field f content msg) as [[v' [m [X [S O]]]]|[X _]];
    [|congruence].
  rewrite R in X. injection X as <-.
  destruct (search_spec _ _ _ S) as [C _].
  destruct O as [o [c [E _]]].
  rewrite C, E in F.
  apply Forall_app in F as [_ F]. apply Forall_app in F as [_ F].
  inversion F as [|? ? _ F']; subst.
  apply Forall_app in F' as [F' _]. exact F'.
Qed.

(** What is read in text mode has no carriage return. *)
Lemma init_version_no_cr (raw v : text) :
  read_init_version (universal raw) = Ok v -> Forall (fun x => x <> cr) v.
Proof.
  unfold read_init_version. rewrite init_read_shape. intros R.
  exact (found_chars _ _ _ _ _ R (universal_no_cr raw)).
Qed.

Lemma setup_version_no_cr (raw v : text) :
  read_setup_version (universal raw) = Ok v -> Forall (fun x => x <> cr) v.
Proof.
  unfold read_setup_version. rewrite setup_read_shape. intros R.
  exact (found_chars _ _ _ _ _ R (universal_no_cr raw)).
Qed.

(** A rewrite brings in no character that is neither in the old content nor
    in the replacement. *)
Lemma Rewritten_Forall (P : ascii -> Prop) (p : regex) (r s s' : text) :
  Rewritten p r s s' -> Forall P r -> Forall P s -> Forall P s'.
Proof.
  intros R Fr. induction R as [s _|gap m rest marks new _ _ _ _ IH]; intros F;
    [exact F|].
  apply Forall_app in F as [Fg F]. apply Forall_app in F as [_ F].
  apply Forall_app. split; [exact Fg|]. apply Forall_app. auto.
Qed.

Lemma setup_field_no_cr (v : text) :
  Forall (fun x => x <> cr) v -> Forall (fun x => x <> cr) (setup_field v).
Proof.
  intros F. unfold setup_field.
  repeat (apply Forall_app; split); auto; repeat constructor; discriminate.
Qed.

Lemma init_field_no_cr (v : text) :
  Forall (fun x => x <> cr) v -> Forall (fun x => x <> cr) (init_field v).
Proof.
  intros F. unfold init_field.
  repeat (apply Forall_app; split); auto; repeat constructor; discriminate.
Qed.

End Readers.

Section Orchestrator.


(** [main] starts with the synchronizer and stops with its exception. *)
Lemma main_sync_raises (g : git) (argv : list text) (w w' : world) (e : exn) :
  sync_versions w = (Raise e, w') -> main g argv w = (Raise e, w').
Proof. intros S. unfold main, bind. rewrite S. reflexivity. Qed.


(** What the synchronizer may change. *)
Lemma sync_versions_effect (w w' : world) (b : bool) :
  sync_versions w = (Ok b, w') ->
  init_py w' = init_py w
  /\ (b = false -> setup_py w' = setup_py w)
  /\ (b = true ->
      exists v sv,
        read_init_version (universal (init_py w)) = Ok v
        /\ read_setup_version (universal (setup_py w)) = Ok sv
        /\ v <> sv
        /\ sub p_setup_sync (setup_field v) (universal (setup_py w))
           = Ok (setup_py w')).
Proof.
  rewrite sync_versions_run.
  destruct (read_init_version (universal (init_py w))) as [v|e]; [|discriminate].
  destruct (read_setup_version (universal (setup_py w))) as [sv|e].
  - destruct (negb (text_eqb v sv)) eqn:D.
    + cbv zeta.
      destruct (sub p_setup_sync (setup_field v) (universal (setup_py w)))
        as [c|e] eqn:E;
        [|discriminate].
      intros H; injection H as <- <-. cbn [init_py setup_py].
      repeat split; [discriminate|]. intros _. exists v, sv.
      repeat split; auto. intros ->. rewrite text_eqb_refl in D. discriminate D.
    + intros H; injection H as <- <-. repeat split. discriminate.
  - destruct e; try discriminate.
    intros H; injection H as <- <-. repeat split. discriminate.
Qed.

End Orchestrator.

(** C7.  A setup.py without the version pattern does not stop the
  synchronizer: it prints a warning, writes nothing and returns [False].
  An __init__.py without its pattern raises [ValueError] out of
  [sync_versions], and the whole run of [main] ends with that exception,
  whatever the arguments are. *)
Theorem pattern_absence_asymmetric (w : world) :
(forall v,
    fst (get_current_version w) = Ok v ->
    search p_setup_read (setup_py w) = None ->
    exists w',
      sync_versions w = (Ok false, w')
      /\ init_py w' = init_py w /\ setup_py w' = setup_py w
      /\ stdout w' = stdout w ++ [lit "Warning: Could not find version in setup.py"])
/\ (search p_init_read (init_py w) = None ->
    sync_versions w
    = (Raise (ValueError (lit "Could not find version in __init__.py")), w)
    /\ forall g argv,
        main g argv w
        = (Raise (ValueError (lit "Could not find version in __init__.py")), w)).
Proof.
split.
- intros v V S. rewrite get_current_version_run in V. cbn [fst] in V.
  rewrite setup_read_shape in S.
  apply (search_universal_none setup_f quoted_setup newline_free_setup) in S.
  rewrite <- setup_read_shape in S.
  rewrite sync_versions_run, V. unfold read_setup_version. rewrite S.
  cbn [found]. eexists. split; [reflexivity|]. auto.
- intros I.
  rewrite init_read_shape in I.
  apply (search_universal_none init_f quoted_init newline_free_init) in I.
  rewrite <- init_read_shape in I.
  assert (S : sync_versions w
              = (Raise (ValueError (lit "Could not find version in __init__.py")), w)).
  { rewrite sync_versions_run. unfold read_init_version. rewrite I. reflexivity. }
  split; [exact S|]. intros g argv. apply main_sync_raises, S.
Qed.

Lemma pattern_absence_asymmetric_witness :
(exists w',
    sync_versions world_no_setup_field = (Ok false, w')
    /\ init_py w' = init_py world_no_setup_field
    /\ setup_py w' = setup_py world_no_setup_field
    /\ stdout w' = stdout world_no_setup_field
                    ++ [lit "Warning: Could not find version in setup.py"])
/\ sync_versions world_no_init_field
   = (Raise (ValueError (lit "Could not find version in __init__.py")),
      world_no_init_field).
Proof.
split.
- apply (proj1 (pattern_absence_asymmetric world_no_setup_field) (lit "1.2.3"));
    reflexivity.
- apply (proj2 (pattern_absence_asymmetric world_no_init_field)). reflexivity.
Defined.




(** ** The manifest writer *)

Section Writer.

Lemma init_field_plain (v : text) :
  ~ In backslash v -> ~ In backslash (init_field v).
Proof.
  intros N I. unfold init_field in I.
  repeat (apply in_app_or in I as [I|I]); auto;
    simpl in I; intuition discriminate.
Qed.

Lemma setup_field_plain (v : text) :
  ~ In backslash v -> ~ In backslash (setup_field v).
Proof.
  intros N I. unfold setup_field in I.
  repeat (apply in_app_or in I as [I|I]); auto;
    simpl in I; intuition discriminate.
Qed.

Lemma setup_comma_plain (v : text) :
  ~ In backslash v -> ~ In backslash (setup_field v ++ lit ",").
Proof.
  intros N I. apply in_app_or in I as [I|I].
  - exact (setup_field_plain v N I).
  - simpl in I. intuition discriminate.
Qed.

Lemma consuming_init_write : consuming p_init_write.
Proof. eexists; eexists; reflexivity. Qed.

Lemma consuming_setup_write : consuming p_setup_write.
Proof. eexists; eexists; reflexivity. Qed.

Lemma consuming_setup_sync : consuming p_setup_sync.
Proof. eexists; eexists; reflexivity. Qed.

(** With a version that has no backslash both rewrites are plain
    substitutions, and the call returns. *)
Lemma update_version_files_run (v : text) (w : world) :
  ~ In backslash v ->
  update_version_files v w
  = (Ok tt,
     MkWorld (subst p_init_write (map PChr (init_field v))
                    (universal (init_py w)))
             (subst p_setup_write (map PChr (setup_field v ++ lit ","))
                    (universal (setup_py w)))
             (stdout w ++ [lit "Updated version to " ++ v ++ lit " in:";
                           lit "  - basicmicro/__init__.py";
                           lit "  - setup.py"])).
Proof.
  intros N. unfold update_version_files.
  cbv [bind read_init read_setup lift write_init write_setup print
         init_py setup_py stdout].
  destruct w as [i s o].
  rewrite (sub_plain p_init_write _ (universal i) (init_field_plain v N)).
  rewrite (sub_plain p_setup_write _ (universal s) (setup_comma_plain v N)).
  rewrite <- !app_assoc. reflexivity.
Qed.

(** A plain substitution, described. *)
Lemma subst_frame (p : regex) (r s : text) :
  consuming p ->
  Rewritten p r s (subst p (map PChr r) s)
  /\ (forall m, search p s = Some m -> search p (post m) = None ->
      subst p (map PChr r) s = pre m ++ r ++ post m).
Proof.
  intros C. split.
  - apply subst_Rewritten; [exact C|]. intros m. apply expand_plain.
  - intros m H N. apply (subst_once p (map PChr r) C r); auto.
    intros m'. apply expand_plain.
Qed.

End Writer.

(** C3, at the failing input: the version field of setup.py has no trailing
  comma.  The writer returns normally and rewrites __init__.py to 1.2.4,
  but leaves setup.py as it was, so that reading setup.py back still gives
  1.2.3. *)
Theorem writer_skips_field_without_comma :
let after := snd (update_version_files (lit "1.2.4") world_no_comma) in
fst (update_version_files (lit "1.2.4") world_no_comma) = Ok tt
/\ fst (get_current_version after) = Ok (lit "1.2.4")
/\ setup_py after = setup_py world_no_comma
/\ fst (get_setup_version after) = Ok (lit "1.2.3").
Proof. vm_compute. repeat split. Qed.

(** C5, at the failing input: the rewrite pattern matches twice in
  setup.py, at the version field and inside [min_version].  The reader
  takes the first match, the version 1.2.3.  The writer returns normally,
  but the new content is not the old content with that version field
  replaced: the second match is rewritten too, so that [min_version] holds
  the new version. *)
Theorem writer_rewrites_every_match :
fst (get_setup_version world_two_fields) = Ok (lit "1.2.3")
/\ fst (update_version_files (lit "1.2.4") world_two_fields) = Ok tt
/\ exists m,
    search p_setup_write (setup_py world_two_fields) = Some m
    /\ whole m = setup_field (lit "1.2.3") ++ lit ","
    /\ setup_py (snd (update_version_files (lit "1.2.4") world_two_fields))
       <> pre m ++ (setup_field (lit "1.2.4") ++ lit ",") ++ post m
    /\ setup_py (snd (update_version_files (lit "1.2.4") world_two_fields))
       = lit "setup(version=" ++ [dq] ++ lit "1.2.4" ++ [dq]
           ++ lit ", min_version=" ++ [dq] ++ lit "1.2.4" ++ [dq] ++ lit ",)".
Proof.
split; [reflexivity|]. split; [reflexivity|].
eexists. split; [vm_compute; reflexivity|].
split; [reflexivity|]. split; [vm_compute; discriminate|reflexivity].
Qed.

(** X17.  The rewrites keep the rest.  For a new version without backslash
    the writer returns, and each manifest is rewritten from the text read
    from it (its line endings read as LF) so that only substrings matched by its
    pattern change: every non-overlapping match, from left to right, is
    replaced by the field that carries the new version, and every character
    outside the matches is kept.  When the pattern matches once, only that
    substring differs.  The same holds for setup.py when the synchronizer
    rewrites it; the synchronizer leaves __init__.py alone, and setup.py too
    when it reports no change. *)
Theorem rewrite_keeps_the_rest (v : text) (w : world) :
  ~ In backslash v ->
  (exists w',
      update_version_files v w = (Ok tt, w')
      /\ Rewritten p_init_write (init_field v)
                   (universal (init_py w)) (init_py w')
      /\ Rewritten p_setup_write (setup_field v ++ lit ",")
                   (universal (setup_py w)) (setup_py w')
      /\ (forall m, search p_init_write (universal (init_py w)) = Some m ->
                    search p_init_write (post m) = None ->
                    init_py w' = pre m ++ init_field v ++ post m)
      /\ (forall m, search p_setup_write (universal (setup_py w)) = Some m ->
                    search p_setup_write (post m) = None ->
                    setup_py w' = pre m ++ (setup_field v ++ lit ",") ++ post m))
  /\ (fst (get_current_version w) = Ok v ->
      exists synced w',
        sync_versions w = (Ok synced, w')
        /\ init_py w' = init_py w
        /\ (synced = false -> setup_py w' = setup_py w)
        /\ (synced = true ->
            Rewritten p_setup_sync (setup_field v)
                      (universal (setup_py w)) (setup_py w')
            /\ forall m, search p_setup_sync (universal (setup_py w)) = Some m ->
                         search p_setup_sync (post m) = None ->
                         setup_py w' = pre m ++ setup_field v ++ post m)).
Proof.
  intros N. split.
  - eexists. split; [apply (update_version_files_run v w N)|].
    cbn [init_py setup_py].
    destruct (subst_frame p_init_write (init_field v) (universal (init_py w))
                consuming_init_write) as [R1 O1].
    destruct (subst_frame p_setup_write (setup_field v ++ lit ",")
                (universal (setup_py w)) consuming_setup_write) as [R2 O2].
    auto.
  - intros V. rewrite get_current_version_run in V. cbn [fst] in V.
    destruct (subst_frame p_setup_sync (setup_field v) (universal (setup_py w))
                consuming_setup_sync) as [R O].
    rewrite sync_versions_run, V.
    destruct (setup_version_cases (universal (setup_py w))) as [[sv [m [X _]]]|X];
      rewrite X.
    + destruct (negb (text_eqb v sv)).
      * cbv zeta. rewrite (sub_plain p_setup_sync _ _ (setup_field_plain v N)).
        eexists; eexists. split; [reflexivity|]. cbn [init_py setup_py].
        repeat split; auto. discriminate.
      * eexists; eexists. split; [reflexivity|]. cbn [say init_py setup_py].
        repeat split; discriminate.
    + eexists; eexists. split; [reflexivity|]. cbn [say init_py setup_py].
      repeat split; discriminate.
Qed.

Lemma rewrite_keeps_the_rest_witness :
(exists w',
    update_version_files (lit "1.2.3") world_mismatch = (Ok tt, w')
    /\ Rewritten p_init_write (init_field (lit "1.2.3"))
                 (universal (init_py world_mismatch)) (init_py w'))
/\ (exists synced w',
       sync_versions world_mismatch = (Ok synced, w')
       /\ init_py w' = init_py world_mismatch).
Proof.
assert (N : ~ In backslash (lit "1.2.3")) by (simpl; intuition discriminate).
destruct (rewrite_keeps_the_rest (lit "1.2.3") world_mismatch N)
  as [[w' [U [R _]]] S].
split.
- exists w'. split; assumption.
- destruct (S eq_refl) as [synced [w1 [X [I _]]]].
  exists synced, w1. split; assumption.
Defined.

(** ** The synchronizer twice *)

(** C6, at the failing input: both patterns match, and the version of
  __init__.py ends with a backslash and [n].  The first run reports a
  change, and so does the second.  [re.sub] reads the backslash and [n] of
  the replacement as a line feed, so after every run setup.py holds a
  version that differs from the one of __init__.py: the two manifests
  never agree. *)
Theorem sync_twice_reports_change_twice :
let w1 := snd (sync_versions world_escape) in
let w2 := snd (sync_versions w1) in
fst (get_current_version world_escape) = Ok (lit "1.2.3\n")
/\ fst (get_setup_version world_escape) = Ok (lit "1.2.0")
/\ fst (sync_versions world_escape) = Ok true
/\ fst (get_current_version w1) = Ok (lit "1.2.3\n")
/\ fst (get_setup_version w1) = Ok (lit "1.2.3" ++ [lf])
/\ fst (sync_versions w1) = Ok true
/\ fst (get_setup_version w2) = Ok (lit "1.2.3" ++ [lf]).
Proof. vm_compute. repeat split. Qed.

(** X16.  The synchronizer, twice.  When both version patterns match and
  the version of __init__.py has no backslash, a first run of the
  synchronizer completes, and a second run right after it returns [False]
  and leaves both files as they are. *)
Theorem sync_idempotent (w : world) (v sv : text) :
fst (get_current_version w) = Ok v ->
fst (get_setup_version w) = Ok sv ->
~ In backslash v ->
exists synced w1 w2,
  sync_versions w = (Ok synced, w1)
  /\ sync_versions w1 = (Ok false, w2)
  /\ init_py w2 = init_py w1
  /\ setup_py w2 = setup_py w1.
Proof.
rewrite get_current_version_run, get_setup_version_run. cbn [fst].
intros V SV N.
destruct (init_version_shape _ _ V) as [Nv Qv].
pose proof (init_version_no_cr _ _ V) as Cv.
assert (Again : forall w1,
           init_py w1 = init_py w ->
           read_setup_version (universal (setup_py w1)) = Ok v ->
           exists w2, sync_versions w1 = (Ok false, w2)
                      /\ init_py w2 = init_py w1 /\ setup_py w2 = setup_py w1).
{ intros w1 I S.
  exists (say w1 [check_mark ++ lit " Versions already in sync: " ++ v]).
  split; [|split; reflexivity].
  rewrite sync_versions_run, I, V, S, text_eqb_refl. reflexivity. }
rewrite sync_versions_run, V, SV.
destruct (text_eqb v sv) eqn:E; cbn [negb].
- apply text_eqb_eq in E. subst sv.
  eexists; eexists.
  destruct (Again (say w [check_mark ++ lit " Versions already in sync: " ++ v]))
    as [w2 X]; [reflexivity|exact SV|].
  exists w2. split; [reflexivity|exact X].
- cbv zeta. rewrite (sub_plain p_setup_sync _ _ (setup_field_plain v N)).
  destruct (setup_version_cases (universal (setup_py w))) as [[sv' [m [_ M]]]|X];
    [|congruence].
  destruct (reread_after_sync (universal (setup_py w)) v m M Nv Qv)
    as [m' [M' G']].
  eexists; eexists.
  match goal with
  | |- exists w2, (?r, ?w1) = _ /\ _ =>
      destruct (Again w1) as [w2 X]; [reflexivity| |exists w2; split; [reflexivity|exact X]]
  end.
  cbn [setup_py]. rewrite universal_plain.
  + unfold read_setup_version. rewrite M'.
    cbn [found group]. rewrite G'. reflexivity.
  + apply (Rewritten_Forall _ p_setup_sync (setup_field v)
             (universal (setup_py w))).
    * apply subst_Rewritten; [exact consuming_setup_sync|].
      intros m0. apply expand_plain.
    * apply setup_field_no_cr, Cv.
    * apply universal_no_cr.
Qed.

Lemma sync_idempotent_witness :
exists synced w1 w2,
  sync_versions world_mismatch = (Ok synced, w1)
  /\ sync_versions w1 = (Ok false, w2)
  /\ init_py w2 = init_py w1
  /\ setup_py w2 = setup_py w1.
Proof.
apply (sync_idempotent world_mismatch (lit "1.2.3") (lit "1.2.0"));
  [reflexivity | reflexivity | simpl; intuition discriminate].
Defined.


(** * Further properties *)

(** ** Commit lines *)

Section CommitLines.

Lemma join_split (sep : ascii) (s : text) : join sep (split sep s) = s.
Proof.
  induction s as [|c s IH]; [reflexivity|].
  cbn [split]. destruct (chr_eqb c sep) eqn:E.
  - apply chr_eqb_eq in E. subst c.
    destruct (split sep s) as [|h t] eqn:S; [destruct (split_nonempty _ _ S)|].
    cbn [join]. cbn [join] in IH. rewrite IH. reflexivity.
  - destruct (split sep s) as [|h t] eqn:S; [destruct (split_nonempty _ _ S)|].
    cbn [join] in *. destruct t; rewrite <- IH; reflexivity.
Qed.

Lemma split_fields (sep : ascii) (s : text) :
  Forall (fun f => ~ In sep f) (split sep s).
Proof.
  induction s as [|c s IH]; cbn [split].
  - constructor; [intros []|constructor].
  - destruct (chr_eqb c sep) eqn:E.
    + constructor; [intros []|exact IH].
    + destruct (split sep s) as [|h t]; [constructor; [|constructor]|].
      * intros [I | I]; [apply chr_eqb_neq in E; auto | destruct I].
      * inversion IH as [|? ? Nh Ft]; subst. constructor; [|exact Ft].
        intros [I|I]; [apply chr_eqb_neq in E; auto|exact (Nh I)].
Qed.

Lemma lstrip_nil (sp : ascii -> bool) (s : text) :
  lstrip sp s = [] <-> Forall (fun c => sp c = true) s.
Proof.
  induction s as [|c s IH]; simpl.
  - split; [constructor|reflexivity].
  - destruct (sp c) eqn:E.
    + rewrite IH. split; [constructor; assumption|].
      intros F; inversion F; assumption.
    + split; [discriminate|]. intros F; inversion F; congruence.
Qed.

(** What [lstrip] keeps starts with a character that is no white space. *)
Lemma lstrip_head (sp : ascii -> bool) (s : text) (c : ascii) (r : text) :
  lstrip sp s = c :: r -> sp c = false.
Proof.
  induction s as [|x s IH]; simpl; [discriminate|].
  destruct (sp x) eqn:E; [exact IH|]. intros H; injection H as -> _. exact E.
Qed.

Lemma strip_nil (sp : ascii -> bool) (s : text) :
  strip_by sp s = [] <-> Forall (fun c => sp c = true) s.
Proof.
  unfold strip_by, rstrip. split.
  - intros H. apply lstrip_nil.
    destruct (lstrip sp s) as [|c r] eqn:L; [reflexivity|].
    exfalso. pose proof (lstrip_head sp s c r L) as Nc.
    apply (f_equal (@rev ascii)) in H. rewrite rev_involutive in H.
    cbn [rev] in H. apply lstrip_nil in H.
    rewrite Forall_forall in H. specialize (H c).
    rewrite H in Nc; [discriminate|].
    apply in_or_app. right. left. reflexivity.
  - intros F. apply lstrip_nil in F. rewrite F. reflexivity.
Qed.

End CommitLines.

(** X1.  The commit list read from a log output is empty exactly when the
    output is blank (only white space).  Otherwise it is not empty, no
    commit line holds a line feed, and the lines joined by line feeds are
    the output with its surrounding white space removed. *)
Theorem commit_lines_of_output (out : text) :
  (commit_lines out = [] <-> Forall (fun c => isspace c = true) out)
  /\ (commit_lines out <> [] ->
      join nl (commit_lines out) = strip out
      /\ Forall (fun line => ~ In nl line) (commit_lines out)).
Proof.
  unfold commit_lines. split.
  - rewrite <- (strip_nil isspace out). fold (strip out).
    destruct (strip out) as [|c r] eqn:S.
    + split; reflexivity.
    + split; [|discriminate]. intros H. destruct (split_nonempty _ _ H).
  - destruct (strip out) as [|c r] eqn:S; [intros H; contradiction|].
    intros _. split; [apply join_split|apply split_fields].
Qed.

Lemma commit_lines_of_output_witness :
  join nl (commit_lines (lit " a1 fix: one" ++ [nl] ++ lit "b2 feat: two" ++ [nl]))
  = strip (lit " a1 fix: one" ++ [nl] ++ lit "b2 feat: two" ++ [nl]).
Proof.
  apply (proj2 (commit_lines_of_output
                  (lit " a1 fix: one" ++ [nl] ++ lit "b2 feat: two" ++ [nl]))).
  discriminate.
Defined.

(** X2.  [get_commits_since_last_tag] raises nothing but
    [CalledProcessError], and only when the log of the whole history fails
    after the tag lookup or the range log has failed; whenever the log of
    the whole history succeeds the call returns a commit list. *)
Theorem commits_failure (g : git) :
  (forall e, get_commits_since_last_tag g = Raise e ->
             e = CalledProcessError /\ git_log g = None
             /\ (git_describe g = None
                 \/ exists tag, git_describe g = Some tag
                                /\ git_log_range g (strip tag ++ lit "..HEAD") = None))
  /\ (forall out, git_log g = Some out ->
                  exists commits, get_commits_since_last_tag g = Ok commits).
Proof.
  unfold get_commits_since_last_tag. split.
  - intros e. destruct (git_describe g) as [tag|]; cbn [run_checked rbind].
    + destruct (git_log_range g (strip tag ++ lit "..HEAD")) eqn:R;
        cbn [run_checked rbind try_CalledProcessError]; [discriminate|].
      destruct (git_log g); cbn [run_checked rbind]; [discriminate|].
      intros H; injection H as <-. repeat split. right. exists tag. auto.
    + cbn [try_CalledProcessError].
      destruct (git_log g); cbn [run_checked rbind]; [discriminate|].
      intros H; injection H as <-. repeat split. left. reflexivity.
  - intros out L. rewrite L.
    destruct (git_describe g) as [tag|]; cbn [run_checked rbind].
    + destruct (git_log_range g (strip tag ++ lit "..HEAD"));
        cbn [run_checked rbind try_CalledProcessError]; eexists; reflexivity.
    + cbn [try_CalledProcessError]. eexists; reflexivity.
Qed.

Lemma commits_failure_witness :
  exists commits, get_commits_since_last_tag git_range_fails = Ok commits.
Proof.
  apply (proj2 (commits_failure git_range_fails)
           (lit "b2 fix: later" ++ [nl] ++ lit "a1 feat: first" ++ [nl])).
  reflexivity.
Defined.

(** ** The classifier over a longer history *)

(** X3.  The decision for two commit lists put together is the stronger of
    the two decisions: more history never lowers the bump. *)
Theorem classifier_append (a b : list text) :
  rank (determine_bump_type (a ++ b))
  = Nat.max (rank (determine_bump_type a)) (rank (determine_bump_type b)).
Proof.
  unfold determine_bump_type. rewrite !existsb_app.
  destruct (existsb (fun commit => contains (lit "!") commit) a),
           (existsb (fun commit => contains (lit "!") commit) b),
           (existsb (fun commit => contains (lit "feat:") commit
                                   || contains (lit "feat(") commit) a),
           (existsb (fun commit => contains (lit "feat:") commit
                                   || contains (lit "feat(") commit) b),
           (existsb (fun commit =>
                       existsb (fun keyword => contains keyword commit)
                               [lit "fix:"; lit "fix("; lit "perf:"; lit "perf("]) a),
           (existsb (fun commit =>
                       existsb (fun keyword => contains keyword commit)
                               [lit "fix:"; lit "fix("; lit "perf:"; lit "perf("]) b);
    reflexivity.
Qed.

(** The classifier answers with one of the three kinds. *)
Lemma classifier_kind (commits : list text) (k : text) :
  determine_bump_type commits = Some k ->
  k = lit "major" \/ k = lit "minor" \/ k = lit "patch".
Proof.
  unfold determine_bump_type.
  destruct (existsb _ commits); [intros H; injection H as <-; auto|].
  destruct (existsb _ commits); [intros H; injection H as <-; auto|].
  destruct (existsb _ commits); [intros H; injection H as <-; auto|discriminate].
Qed.

(** X4.  A kind chosen by the classifier is one the bumper accepts: on a
    version with at least three numeric fields the bump then succeeds. *)
Theorem classified_bump_succeeds (commits : list text) (k v : text)
        (x y z : Z) (more : list Z) :
  determine_bump_type commits = Some k ->
  map Py.int (split "."%char v) = map Some (x :: y :: z :: more) ->
  exists new_version, bump_version v k = Ok new_version.
Proof.
  intros D F. apply ints_numerals in F.
  destruct (bump_three v _ F x y z more eq_refl) as [B1 [B2 B3]].
  destruct (classifier_kind commits k D) as [-> | [-> | ->]]; eexists; eassumption.
Qed.

Lemma classified_bump_succeeds_witness :
  exists new_version, bump_version (lit "1.2.3") (lit "patch") = Ok new_version.
Proof.
  apply (classified_bump_succeeds [lit "a1 fix: one"] (lit "patch") (lit "1.2.3")
           1 2 3 []); reflexivity.
Defined.

(** ** Bumping more than once *)

(** X5.  On a version with at least three numeric fields, the first three
    non-negative, every bump returns the text of a version that comes
    strictly later, and that text splits again into three numerals: the
    result can be bumped again. *)
Theorem bump_result_is_later_version (v k : text) (x y z : Z) (more : list Z) :
  map Py.int (split "."%char v) = map Some (x :: y :: z :: more) ->
  0 <= x -> 0 <= y -> 0 <= z ->
  In k [lit "major"; lit "minor"; lit "patch"] ->
  exists a b c,
    bump_version v k = Ok (version_text a b c)
    /\ map Py.int (split "."%char (version_text a b c)) = [Some a; Some b; Some c]
    /\ 0 <= a /\ 0 <= b /\ 0 <= c
    /\ later x y z a b c.
Proof.
  intros F X Y Z K. apply ints_numerals in F.
  destruct (bump_three v _ F x y z more eq_refl) as [B1 [B2 B3]].
  destruct K as [<- | [<- | [<- | []]]].
  - exists (x + 1), 0, 0. split; [exact B1|].
    split; [apply version_text_fields; lia|]. unfold later. lia.
  - exists x, (y + 1), 0. split; [exact B2|].
    split; [apply version_text_fields; lia|]. unfold later. lia.
  - exists x, y, (z + 1). split; [exact B3|].
    split; [apply version_text_fields; lia|]. unfold later. lia.
Qed.

Lemma bump_result_is_later_version_witness :
  exists a b c,
    bump_version (lit "0.9.9") (lit "major") = Ok (version_text a b c)
    /\ map Py.int (split "."%char (version_text a b c)) = [Some a; Some b; Some c]
    /\ 0 <= a /\ 0 <= b /\ 0 <= c
    /\ later 0 9 9 a b c.
Proof.
  apply (bump_result_is_later_version (lit "0.9.9") (lit "major") 0 9 9 []);
    [reflexivity | lia | lia | lia | left; reflexivity].
Defined.



(** ** The synchronizer *)

(** X7.  Whatever its outcome, also an exception, [sync_versions] leaves
    __init__.py as it was, and it leaves setup.py as it was unless it
    returns [True]. *)
Theorem sync_versions_frame (w w' : world) (r : result bool) :
  sync_versions w = (r, w') ->
  init_py w' = init_py w
  /\ (r <> Ok true -> setup_py w' = setup_py w).
Proof.
  rewrite sync_versions_run.
  destruct (read_init_version (universal (init_py w))) as [v|e].
  - destruct (read_setup_version (universal (setup_py w))) as [sv|e].
    + destruct (negb (text_eqb v sv)).
      * cbv zeta.
        destruct (sub p_setup_sync (setup_field v) (universal (setup_py w)))
          as [c|e];
          intros H; injection H as <- <-; cbn [say init_py setup_py];
          split; try reflexivity; intros N; contradiction.
      * intros H; injection H as <- <-. split; reflexivity.
    + destruct e; intros H; injection H as <- <-; split; reflexivity.
  - intros H; injection H as <- <-. split; reflexivity.
Qed.

Lemma sync_versions_frame_witness :
  init_py (snd (sync_versions world_mismatch)) = init_py world_mismatch.
Proof.
  apply (proj1 (sync_versions_frame world_mismatch
                  (snd (sync_versions world_mismatch))
                  (fst (sync_versions world_mismatch)) eq_refl)).
Defined.

(** X8.  What the synchronizer is for: when both version patterns match and
    the version of __init__.py has no backslash, [sync_versions] returns,
    and afterwards both readers give the version of __init__.py.  It
    returns [True] exactly when the two versions differed. *)
Theorem sync_versions_agreement (w : world) (v sv : text) :
  fst (get_current_version w) = Ok v ->
  fst (get_setup_version w) = Ok sv ->
  ~ In backslash v ->
  exists synced w',
    sync_versions w = (Ok synced, w')
    /\ fst (get_current_version w') = Ok v
    /\ fst (get_setup_version w') = Ok v
    /\ (synced = true <-> v <> sv).
Proof.
  rewrite get_current_version_run, get_setup_version_run. cbn [fst].
  intros V SV N. destruct (init_version_shape _ _ V) as [Nv Qv].
  pose proof (init_version_no_cr _ _ V) as Cv.
  rewrite sync_versions_run, V, SV.
  destruct (text_eqb v sv) eqn:E; cbn [negb].
  - apply text_eqb_eq in E. subst sv. eexists; eexists.
    split; [reflexivity|].
    rewrite get_current_version_run, get_setup_version_run.
    cbn [fst say init_py setup_py]. repeat split; auto; try discriminate.
  - cbv zeta. rewrite (sub_plain p_setup_sync _ _ (setup_field_plain v N)).
    destruct (setup_version_cases (universal (setup_py w)))
      as [[sv' [m [_ M]]]|X]; [|congruence].
    destruct (reread_after_sync (universal (setup_py w)) v m M Nv Qv)
      as [m' [M' G']].
    eexists; eexists. split; [reflexivity|].
    rewrite get_current_version_run, get_setup_version_run.
    cbn [fst init_py setup_py]. repeat split; auto.
    + rewrite universal_plain.
      * unfold read_setup_version. rewrite M'. cbn [found group]. rewrite G'.
        reflexivity.
      * apply (Rewritten_Forall _ p_setup_sync (setup_field v)
                 (universal (setup_py w))).
        -- apply subst_Rewritten; [exact consuming_setup_sync|].
           intros m0. apply expand_plain.
        -- apply setup_field_no_cr, Cv.
        -- apply universal_no_cr.
    + intros _ ->. rewrite text_eqb_refl in E. discriminate E.
Qed.

Lemma sync_versions_agreement_witness :
  exists synced w',
    sync_versions world_mismatch = (Ok synced, w')
    /\ fst (get_current_version w') = Ok (lit "1.2.3")
    /\ fst (get_setup_version w') = Ok (lit "1.2.3")
    /\ (synced = true <-> lit "1.2.3" <> lit "1.2.0").
Proof.
  apply (sync_versions_agreement world_mismatch (lit "1.2.3") (lit "1.2.0"));
    [reflexivity | reflexivity | simpl; intuition discriminate].
Defined.


(** ** Reading back what was written *)

Section ManifestRoundTrip.

Lemma stops_init (v : text) :
  ~ In dq v -> ~ In "'"%char v -> Forall (fun x => stops init_f x = false) v.
Proof.
  intros D Q. apply Forall_forall. intros x I. unfold stops. simpl.
  rewrite orb_false_r. apply orb_false_iff. split; apply chr_eqb_neq;
    intros ->; auto.
Qed.

Lemma stops_setup (v : text) :
  ~ In dq v -> Forall (fun x => stops setup_f x = false) v.
Proof. intros D. apply not_stop_dq. exact D. Qed.

(** After the writer has rewritten __init__.py with a plain version, the
    reader finds that version. *)
Lemma reread_init (content v : text) (m : rmatch) :
  search p_init_read content = Some m -> plain v ->
  read_init_version (subst p_init_write (map PChr (init_field v)) content) = Ok v.
Proof.
  intros H [Nv [D [Q _]]]. rewrite init_read_shape in H.
  destruct (search_spec _ _ _ H) as [_ [[marks [E _]] _]].
  destruct (exec_field init_f true _ _ _ E) as [v0 [O0 _]].
  destruct (field_exec init_f closes_init false _ _ _ O0) as [marks0 [E0 _]].
  destruct (reread_after_write init_f quoted_init p_init_write content m
              dq dq v [] (post m) marks0) as [m' [M' G']]; auto.
  - apply consuming_init_write.
  - intros s ms rs X. rewrite init_write_shape in X.
    destruct (exec_field init_f false _ _ _ X) as [v' [O _]]. eauto.
  - apply stops_init; assumption.
  - unfold read_init_version. rewrite init_read_shape.
    change (init_field v) with (f_name init_f ++ dq :: v ++ [dq]).
    rewrite M'. cbn [found group]. rewrite G'. reflexivity.
Qed.

(** The same for setup.py, when a comma follows the field that the reader
    finds. *)
Lemma reread_setup (content v rest : text) (m : rmatch) :
  search p_setup_read content = Some m -> post m = ","%char :: rest ->
  v <> [] -> ~ In dq v ->
  read_setup_version
    (subst p_setup_write (map PChr (setup_field v ++ lit ",")) content) = Ok v.
Proof.
  intros H Comma Nv D. rewrite setup_read_shape in H.
  destruct (search_spec _ _ _ H) as [_ [[marks [E _]] _]].
  destruct (exec_field setup_f true _ _ _ E) as [v0 [O0 _]].
  assert (Oc : occurs setup_comma_f (whole m ++ post m) v0 rest).
  { destruct O0 as [o [c [E0 [Ao [Nv0 [Fv0 Ac]]]]]]. exists o, c.
    repeat split; auto. rewrite E0, Comma. reflexivity. }
  assert (Cc : closes setup_comma_f) by exact closes_setup.
  destruct (field_exec setup_comma_f Cc false _ _ _ Oc) as [marks0 [E0 _]].
  destruct (reread_after_write setup_f quoted_setup p_setup_write content m
              dq dq v (lit ",") rest marks0) as [m' [M' G']]; auto.
  - apply consuming_setup_write.
  - intros s ms rs X. rewrite setup_write_shape in X.
    destruct (exec_field setup_comma_f false _ _ _ X) as [v' [O _]].
    destruct O as [o [c [Es [Ao [Nv' [Fv' Ac]]]]]].
    exists v', (lit "," ++ rs). exists o, c. repeat split; auto.
  - apply stops_setup; assumption.
  - unfold read_setup_version. rewrite setup_read_shape.
    replace (setup_field v ++ lit ",")
      with (f_name setup_f ++ dq :: v ++ dq :: lit ",")
      by (unfold setup_field; cbn [f_name setup_f]; flatten; reflexivity).
    rewrite M'. cbn [found group]. rewrite G'. reflexivity.
Qed.

Lemma plain_no_backslash (v : text) : plain v -> ~ In backslash v.
Proof. intros [_ [_ [_ [B _]]]]. exact B. Qed.

Lemma plain_no_cr (v : text) : plain v -> Forall (fun x => x <> cr) v.
Proof.
  intros [_ [_ [_ [_ C]]]]. apply Forall_forall. intros x I ->. exact (C I).
Qed.

(** What the writer stores has no carriage return, and is read back as it
    is. *)
Lemma written_init_plain (content v : text) :
  plain v ->
  universal (subst p_init_write (map PChr (init_field v)) (universal content))
  = subst p_init_write (map PChr (init_field v)) (universal content).
Proof.
  intros Pv. apply universal_plain.
  apply (Rewritten_Forall _ p_init_write (init_field v) (universal content)).
  - apply subst_Rewritten; [exact consuming_init_write|].
    intros m0. apply expand_plain.
  - apply init_field_no_cr, plain_no_cr, Pv.
  - apply universal_no_cr.
Qed.

Lemma written_setup_plain (content v : text) :
  plain v ->
  universal (subst p_setup_write (map PChr (setup_field v ++ lit ","))
                   (universal content))
  = subst p_setup_write (map PChr (setup_field v ++ lit ",")) (universal content).
Proof.
  intros Pv. apply universal_plain.
  apply (Rewritten_Forall _ p_setup_write (setup_field v ++ lit ",")
           (universal content)).
  - apply subst_Rewritten; [exact consuming_setup_write|].
    intros m0. apply expand_plain.
  - apply Forall_app. split; [apply setup_field_no_cr, plain_no_cr, Pv|].
    repeat constructor; discriminate.
  - apply universal_no_cr.
Qed.

End ManifestRoundTrip.

(** X9.  Writing then reading __init__.py: when the version pattern matches
    in __init__.py and the new version is plain (in particular without
    carriage return, which would be read back as a line feed),
    [update_version_files] returns and [get_current_version] then gives the
    new version. *)
Theorem written_version_is_read_back (w : world) (old v : text) :
  fst (get_current_version w) = Ok old ->
  plain v ->
  exists w',
    update_version_files v w = (Ok tt, w')
    /\ fst (get_current_version w') = Ok v.
Proof.
  rewrite get_current_version_run. cbn [fst]. intros O Pv.
  eexists. split; [apply update_version_files_run, plain_no_backslash, Pv|].
  rewrite get_current_version_run. cbn [fst init_py].
  rewrite (written_init_plain _ _ Pv).
  unfold read_init_version in O.
  destruct (search p_init_read (universal (init_py w))) as [m|] eqn:H;
    [|discriminate O].
  apply (reread_init _ _ m H Pv).
Qed.

Lemma written_version_is_read_back_witness :
  exists w',
    update_version_files (lit "1.2.4") world_no_comma = (Ok tt, w')
    /\ fst (get_current_version w') = Ok (lit "1.2.4").
Proof.
  apply (written_version_is_read_back world_no_comma (lit "1.2.3") (lit "1.2.4")).
  - reflexivity.
  - unfold plain. simpl. intuition discriminate.
Defined.

(** X10.  Writing then reading setup.py: when the field that
    [get_setup_version] finds in the text read from setup.py is followed by
    a comma and the new version is plain, [get_setup_version] gives the new
    version after [update_version_files]. *)
Theorem written_setup_version_is_read_back (w : world) (m : rmatch)
        (rest v : text) :
  search p_setup_read (universal (setup_py w)) = Some m ->
  post m = ","%char :: rest ->
  plain v ->
  exists w',
    update_version_files v w = (Ok tt, w')
    /\ fst (get_setup_version w') = Ok v.
Proof.
  intros H Comma Pv.
  eexists. split; [apply update_version_files_run, plain_no_backslash, Pv|].
  rewrite get_setup_version_run. cbn [fst setup_py].
  rewrite (written_setup_plain _ _ Pv).
  destruct Pv as [Nv [D _]]. apply (reread_setup _ _ rest m H Comma Nv D).
Qed.

Lemma written_setup_version_is_read_back_witness :
  exists w',
    update_version_files (lit "1.2.4") world_mismatch = (Ok tt, w')
    /\ fst (get_setup_version w') = Ok (lit "1.2.4").
Proof.
  destruct (search p_setup_read (universal (setup_py world_mismatch)))
    as [m|] eqn:H; [|discriminate H].
  apply (written_setup_version_is_read_back world_mismatch m
           (lit " packages=[])") (lit "1.2.4") H).
  - injection H as <-. reflexivity.
  - unfold plain. simpl. intuition discriminate.
Defined.


(** ** The release path *)

Section Release.

Lemma str_chars (n : Z) :
  Forall (fun c => is_digit c = true \/ c = "-"%char) (str n).
Proof.
  unfold str. destruct (n <? 0) eqn:E.
  - apply Z.ltb_lt in E. constructor; [right; reflexivity|].
    eapply Forall_impl; [|apply (digits_digits (- n)); lia]. intros c D. left. exact D.
  - apply Z.ltb_ge in E.
    eapply Forall_impl; [|apply (digits_digits n); lia]. intros c D. left. exact D.
Qed.

Lemma str_nonempty (n : Z) : str n <> [].
Proof.
  unfold str. destruct (n <? 0); [discriminate|apply digits_nonempty].
Qed.

Lemma version_text_chars (a b c : Z) :
  Forall (fun x => is_digit x = true \/ x = "-"%char \/ x = "."%char)
         (version_text a b c).
Proof.
  assert (S : forall n, Forall (fun x => is_digit x = true \/ x = "-"%char
                                         \/ x = "."%char) (str n)).
  { intros n. eapply Forall_impl; [|apply (str_chars n)].
    intros x [D|D]; auto. }
  assert (Dot : Forall (fun x => is_digit x = true \/ x = "-"%char
                                 \/ x = "."%char) (lit ".")).
  { apply Forall_cons; [auto|apply Forall_nil]. }
  unfold version_text.
  apply Forall_app; split; [apply S|].
  apply Forall_app; split; [exact Dot|].
  apply Forall_app; split; [apply S|].
  apply Forall_app; split; [exact Dot|apply S].
Qed.

(** The text of a version is plain. *)
Lemma version_text_plain (a b c : Z) : plain (version_text a b c).
Proof.
  pose proof (version_text_chars a b c) as F. rewrite Forall_forall in F.
  unfold plain. repeat split.
  - unfold version_text. intros E. apply app_eq_nil in E as [E _].
    exact (str_nonempty a E).
  - intros I. destruct (F _ I) as [D|[D|D]]; discriminate D.
  - intros I. destruct (F _ I) as [D|[D|D]]; discriminate D.
  - intros I. destruct (F _ I) as [D|[D|D]]; discriminate D.
  - intros I. destruct (F _ I) as [D|[D|D]]; discriminate D.
Qed.

(** Whatever [bump_version] returns is the text of a version. *)
Lemma bump_version_shape (v k nv : text) :
  bump_version v k = Ok nv -> exists a b c, nv = version_text a b c.
Proof.
  unfold bump_version.
  destruct (ints (split "."%char v)) as [parts|e]; [|discriminate].
  cbn [rbind].
  match goal with
  | |- rbind ?step _ = _ -> _ => destruct step as [parts'|e]; [|discriminate]
  end.
  cbn [rbind].
  destruct (getitem parts' 0) as [a|e]; [|discriminate].
  destruct (getitem parts' 1) as [b|e]; [|discriminate].
  destruct (getitem parts' 2) as [c|e]; [|discriminate].
  cbn [rbind]. intros H; injection H as <-. exists a, b, c. reflexivity.
Qed.

(** The release path, step by step. *)
Lemma release_run (g : git) (k : text) (w : world) (v0 nv : text) :
  fst (get_current_version w) = Ok v0 ->
  bump_version v0 k = Ok nv ->
  release g k w =
  let w2 := rewritten nv w
              [lit "Bumping version from " ++ v0 ++ lit " to " ++ nv
                 ++ lit " (" ++ k ++ lit ")";
               lit "Updated version to " ++ nv ++ lit " in:";
               lit "  - basicmicro/__init__.py";
               lit "  - setup.py"] in
  match git_add g with
  | None => (Raise CalledProcessError, w2)
  | Some _ =>
      match git_commit g (lit "chore(release): " ++ nv) with
      | None => (Raise CalledProcessError, w2)
      | Some _ =>
          match git_tag g (lit "v" ++ nv) with
          | None => (Raise CalledProcessError, w2)
          | Some _ =>
              (Ok tt, say w2 [lit "Created tag: " ++ lit "v" ++ nv;
                              lit "Version successfully bumped to " ++ nv])
          end
      end
  end.
Proof.
  rewrite get_current_version_run. cbn [fst]. intros V B.
  destruct (bump_version_shape _ _ _ B) as [a [b [c E]]].
  assert (N : ~ In backslash nv).
  { subst nv. apply plain_no_backslash, version_text_plain. }
  unfold release. unfold bind at 1. rewrite get_current_version_run, V.
  unfold bind at 1. unfold lift at 1. rewrite B.
  unfold bind at 1. unfold print at 1.
  unfold bind at 1. rewrite (update_version_files_run nv _ N).
  cbv [bind lift run_checked print rewritten say init_py setup_py stdout].
  destruct w as [i s o].
  destruct (git_add g); [|rewrite <- !app_assoc; reflexivity].
  destruct (git_commit g _); [|rewrite <- !app_assoc; reflexivity].
  destruct (git_tag g _); rewrite <- !app_assoc; reflexivity.
Qed.

(** With one of the three kinds as argument, [main] synchronizes and then
    releases. *)
Lemma main_explicit (g : git) (script k : text) (more : list text)
      (w w1 : world) (b : bool) :
  In k [lit "major"; lit "minor"; lit "patch"] ->
  sync_versions w = (Ok b, w1) ->
  main g (script :: k :: more) w = release g k w1.
Proof.
  intros K S. unfold main. unfold bind at 1. rewrite S.
  destruct K as [<- | [<- | [<- | []]]]; reflexivity.
Qed.

End Release.

(** X11.  A run with one of the three kinds as argument, a synchronization
    step that completes and a version with at least three numeric fields:
    both manifests are rewritten before the tagging commands run.  Whether
    or not these succeed, __init__.py reads the bumped version afterwards;
    the run ends normally when all three commands succeed and with
    [CalledProcessError] otherwise, without undoing the rewrite. *)
Theorem bump_is_written_before_tagging (g : git) (script k : text)
        (more : list text) (w w1 : world) (b : bool) (v0 : text)
        (x y z : Z) (rest : list Z) :
  In k [lit "major"; lit "minor"; lit "patch"] ->
  sync_versions w = (Ok b, w1) ->
  fst (get_current_version w) = Ok v0 ->
  map Py.int (split "."%char v0) = map Some (x :: y :: z :: rest) ->
  exists nv,
    bump_version v0 k = Ok nv
    /\ fst (get_current_version (snd (main g (script :: k :: more) w))) = Ok nv
    /\ (tagging_succeeds g nv -> fst (main g (script :: k :: more) w) = Ok tt)
    /\ (~ tagging_succeeds g nv ->
        fst (main g (script :: k :: more) w) = Raise CalledProcessError).
Proof.
  intros K S V F.
  assert (B : exists nv, bump_version v0 k = Ok nv).
  { apply ints_numerals in F.
    destruct (bump_three v0 _ F x y z rest eq_refl) as [B1 [B2 B3]].
    destruct K as [<- | [<- | [<- | []]]]; eexists; eassumption. }
  destruct B as [nv B]. exists nv. split; [exact B|].
  destruct (sync_versions_effect w w1 b S) as [I _].
  assert (V1 : fst (get_current_version w1) = Ok v0).
  { rewrite get_current_version_run in *. cbn [fst] in *. rewrite I. exact V. }
  rewrite (main_explicit g script k more w w1 b K S).
  rewrite (release_run g k w1 v0 nv V1 B). cbv zeta.
  destruct (bump_version_shape _ _ _ B) as [a' [b' [c' E]]].
  assert (Pn : plain nv) by (subst nv; apply version_text_plain).
  assert (R : forall w',
             init_py w' = subst p_init_write (map PChr (init_field nv))
                                (universal (init_py w1)) ->
             fst (get_current_version w') = Ok nv).
  { intros w' Iw. rewrite get_current_version_run. cbn [fst]. rewrite Iw.
    rewrite (written_init_plain _ _ Pn).
    rewrite get_current_version_run in V1. cbn [fst] in V1.
    unfold read_init_version in V1.
    destruct (search p_init_read (universal (init_py w1))) as [m|] eqn:H;
      [|discriminate V1].
    apply (reread_init _ _ m H Pn). }
  unfold tagging_succeeds.
  destruct (git_add g) as [o1|].
  - destruct (git_commit g (lit "chore(release): " ++ nv)) as [o2|].
    + destruct (git_tag g (lit "v" ++ nv)) as [o3|]; cbn [fst snd].
      * split; [apply R; reflexivity|]. split; [reflexivity|].
        intros N. exfalso. apply N. repeat split; discriminate.
      * split; [apply R; reflexivity|]. split; [|reflexivity].
        intros [_ [_ T]]. contradiction.
    + cbn [fst snd]. split; [apply R; reflexivity|]. split; [|reflexivity].
      intros [_ [T _]]. contradiction.
  - cbn [fst snd]. split; [apply R; reflexivity|]. split; [|reflexivity].
    intros [T _]. contradiction.
Qed.

Lemma bump_is_written_before_tagging_witness :
  exists nv,
    bump_version (lit "1.2.3") (lit "minor") = Ok nv
    /\ fst (get_current_version
              (snd (main git_range_fails [lit "bump_version.py"; lit "minor"]
                      world_mismatch))) = Ok nv.
Proof.
  destruct (bump_is_written_before_tagging git_range_fails (lit "bump_version.py")
              (lit "minor") [] world_mismatch
              (snd (sync_versions world_mismatch)) true (lit "1.2.3") 1 2 3 [])
    as [nv [B [R _]]].
  - right; left; reflexivity.
  - reflexivity.
  - reflexivity.
  - reflexivity.
  - exists nv. split; assumption.
Defined.

(** X12.  Automatic mode (no argument).  When the classifier picks a kind,
    the run is the run with that kind as argument; when it picks none, the
    run ends normally after the synchronization step and one status line;
    when the commit retrieval fails, its exception ends the run after the
    synchronization step. *)
Theorem automatic_mode (g : git) (script : text) (w : world) :
  (forall commits k,
      get_commits_since_last_tag g = Ok commits ->
      determine_bump_type commits = Some k ->
      main g [script] w = main g [script; k] w)
  /\ (forall commits synced w1,
         get_commits_since_last_tag g = Ok commits ->
         determine_bump_type commits = None ->
         sync_versions w = (Ok synced, w1) ->
         main g [script] w
         = (Ok tt,
            say w1 [if synced
                    then lit "Version sync completed, but no version bump needed (no feat/fix/perf commits found)"
                    else lit "No version bump needed (no feat/fix/perf commits found)"]))
  /\ (forall e synced w1,
         get_commits_since_last_tag g = Raise e ->
         sync_versions w = (Ok synced, w1) ->
         main g [script] w = (Raise e, w1)).
Proof.
  repeat split.
  - intros commits k C D. unfold main, bind.
    destruct (sync_versions w) as [[b|e] w1]; [|reflexivity].
    unfold lift. rewrite C, D.
    destruct (classifier_kind commits k D) as [-> | [-> | ->]]; reflexivity.
  - intros commits b w1 C D S. unfold main. unfold bind at 1. rewrite S.
    unfold bind, lift. rewrite C, D. destruct b; destruct w1; reflexivity.
  - intros e b w1 C S. unfold main. unfold bind at 1. rewrite S.
    unfold bind, lift. rewrite C. reflexivity.
Qed.

Lemma automatic_mode_witness :
  main git_range_fails [lit "bump_version.py"] world_mismatch
  = main git_range_fails [lit "bump_version.py"; lit "minor"] world_mismatch.
Proof.
  apply (proj1 (automatic_mode git_range_fails (lit "bump_version.py")
                  world_mismatch)
           [lit "b2 fix: later"; lit "a1 feat: first"] (lit "minor"));
    reflexivity.
Defined.

(** X13.  With the argument [sync] the run consults no version-control
    command: it is the same for every [git].  When the synchronization step
    completes, the run ends normally with one more status line and touches
    no file beyond what that step did. *)
Theorem sync_mode_ignores_git (g g' : git) (script : text) (more : list text)
        (w : world) :
  main g (script :: lit "sync" :: more) w = main g' (script :: lit "sync" :: more) w
  /\ (forall synced w1,
         sync_versions w = (Ok synced, w1) ->
         main g (script :: lit "sync" :: more) w
         = (Ok tt,
            say w1 [if synced then lit "Version sync completed successfully"
                    else lit "Versions were already in sync"])).
Proof.
  split.
  - unfold main, bind. destruct (sync_versions w) as [[b|e] w1]; reflexivity.
  - intros b w1 S. unfold main. unfold bind at 1. rewrite S.
    destruct b; destruct w1; reflexivity.
Qed.

Lemma sync_mode_ignores_git_witness :
  main git_quiet [lit "bump_version.py"; lit "sync"] world_mismatch
  = (Ok tt,
     say (snd (sync_versions world_mismatch))
         [lit "Version sync completed successfully"]).
Proof.
  apply (proj2 (sync_mode_ignores_git git_quiet git_quiet (lit "bump_version.py")
                  [] world_mismatch) true (snd (sync_versions world_mismatch))).
  reflexivity.
Defined.

(** ** What the readers accept *)

Section FirstField.

Variable f : field.
Hypothesis f_quoted : quoted f.

(** The field is found behind any text that holds no quotation
    character. *)
Lemma search_behind_gap (gap v rest : text) (o c : ascii) :
  Forall (fun x => stops f x = false) gap ->
  stops f o = true -> stops f c = true ->
  v <> [] -> Forall (fun x => stops f x = false) v ->
  exists m,
    search (field_regex true f) (gap ++ f_name f ++ o :: v ++ c :: rest) = Some m
    /\ pre m = gap /\ groups m = [v].
Proof.
  intros Fg So Sc Nv Fv. destruct f_quoted as [_ [_ [Fn _]]].
  assert (O : occurs f (f_name f ++ o :: v ++ c :: rest) v rest).
  { apply (occurs_quoted f f_quoted). exists o, c. auto. }
  destruct (field_exec f (quoted_closes f f_quoted) true _ _ _ O) as [marks [E G]].
  assert (U : unmatched (field_regex true f) gap (f_name f ++ o :: v ++ c :: rest)).
  { intros a b Sa Nb.
    destruct (exec (field_regex true f) [] (b ++ f_name f ++ o :: v ++ c :: rest))
      as [[mk rs]|] eqn:X; [|reflexivity].
    exfalso. destruct (exec_field f true _ _ _ X) as [v' [O' _]].
    apply (occurs_quoted f f_quoted) in O' as [o1 [c1 [E' [So1 _]]]].
    rewrite app_assoc in E'.
    assert (Fb : Forall (fun x => stops f x = false) (b ++ f_name f)).
    { apply Forall_app. split; [|exact Fn]. rewrite Sa in Fg.
      apply Forall_app in Fg. apply Fg. }
    destruct (first_unique_by (stops f) _ _ _ _ _ _ E' So So1 Fb Fn) as [E1 _].
    apply (f_equal (@List.length ascii)) in E1. rewrite length_app in E1.
    destruct b; [contradiction|]. simpl in E1. lia. }
  rewrite (search_first _ _ _ _ _ U E). eexists. split; [reflexivity|].
  split; [reflexivity|exact G].
Qed.

End FirstField.

(** X14.  The readers take the first place where their pattern fits, also
    inside a longer name.  [get_setup_version] returns the value that
    follows [version=] in double quotes when no double quote stands before
    it; [get_current_version] returns the value of [__version__ = ] between
    two quotation characters of either kind, also two different ones, when
    no quotation character stands before it.  The value is returned as it
    is read in text mode: a line ending inside it comes back as a line
    feed. *)
Theorem readers_take_first_field (w : world) (gap v rest : text) :
  v <> [] ->
  (setup_py w = gap ++ setup_field v ++ rest ->
   ~ In dq gap -> ~ In dq v ->
   fst (get_setup_version w) = Ok (universal v))
  /\ (forall o c,
         init_py w = gap ++ lit "__version__ = " ++ o :: v ++ c :: rest ->
         In o quotes -> In c quotes ->
         ~ In dq gap -> ~ In "'"%char gap -> ~ In dq v -> ~ In "'"%char v ->
         fst (get_current_version w) = Ok (universal v)).
Proof.
  intros Nv. pose proof (universal_nonempty v Nv) as Nu. split.
  - intros S Dg Dv. rewrite get_setup_version_run. cbn [fst]. rewrite S.
    replace (gap ++ setup_field v ++ rest)
      with (gap ++ f_name setup_f ++ dq :: v ++ dq :: rest)
      by (unfold setup_field; cbn [f_name setup_f]; flatten; reflexivity).
    rewrite (universal_field setup_f newline_free_setup gap v rest dq dq)
      by reflexivity.
    destruct (search_behind_gap setup_f quoted_setup (universal gap)
                (universal v) (universal rest) dq dq)
      as [m [M [_ G]]]; auto;
      try (apply universal_Forall; [reflexivity|apply stops_setup; assumption]).
    unfold read_setup_version. rewrite setup_read_shape.
    rewrite M. cbn [found group]. rewrite G. reflexivity.
  - intros o c I Io Ic Dg Qg Dv Qv.
    rewrite get_current_version_run. cbn [fst]. rewrite I.
    assert (St : forall q, In q quotes -> stops init_f q = true).
    { intros q [<- | [<- | []]]; reflexivity. }
    change (lit "__version__ = ") with (f_name init_f).
    rewrite (universal_field init_f newline_free_init gap v rest o c)
      by auto.
    destruct (search_behind_gap init_f quoted_init (universal gap)
                (universal v) (universal rest) o c)
      as [m [M [_ G]]]; auto;
      try (apply universal_Forall; [reflexivity|apply stops_init; assumption]).
    unfold read_init_version. rewrite init_read_shape.
    rewrite M. cbn [found group]. rewrite G. reflexivity.
Qed.

Lemma readers_take_first_field_witness :
  fst (get_setup_version
         (MkWorld [] (lit "setup(min_" ++ setup_field (lit "0.9") ++ lit ")") []))
  = Ok (lit "0.9").
Proof.
  apply (proj1 (readers_take_first_field
                  (MkWorld [] (lit "setup(min_" ++ setup_field (lit "0.9") ++ lit ")") [])
                  (lit "setup(min_") (lit "0.9") (lit ")")
                  ltac:(discriminate))).
  - reflexivity.
  - simpl. intuition discriminate.
  - simpl. intuition discriminate.
Defined.

(** X15.  The writer never reports a manifest it could not update: for a
    new version without backslash it returns normally, and a manifest in
    which its pattern fits nowhere is written back as the text that was
    read from it.  That is the file with its line endings turned into line
    feeds; a manifest without carriage return is left exactly as it was. *)
Theorem writer_leaves_unmatched_manifest (w : world) (v : text) :
  ~ In backslash v ->
  fst (update_version_files v w) = Ok tt
  /\ (search p_init_write (universal (init_py w)) = None ->
      init_py (snd (update_version_files v w)) = universal (init_py w))
  /\ (search p_setup_write (universal (setup_py w)) = None ->
      setup_py (snd (update_version_files v w)) = universal (setup_py w))
  /\ (Forall (fun x => x <> cr) (init_py w) ->
      search p_init_write (init_py w) = None ->
      init_py (snd (update_version_files v w)) = init_py w)
  /\ (Forall (fun x => x <> cr) (setup_py w) ->
      search p_setup_write (setup_py w) = None ->
      setup_py (snd (update_version_files v w)) = setup_py w).
Proof.
  intros N. rewrite (update_version_files_run v w N). cbn [fst snd init_py setup_py].
  split; [reflexivity|]. split; [intros H; apply subst_none; exact H|].
  split; [intros H; apply subst_none; exact H|].
  split; intros F H; rewrite (universal_plain _ F); apply subst_none; exact H.
Qed.

Lemma writer_leaves_unmatched_manifest_witness :
  fst (update_version_files (lit "1.2.4") world_no_comma) = Ok tt
  /\ setup_py (snd (update_version_files (lit "1.2.4") world_no_comma))
     = setup_py world_no_comma.
Proof.
  destruct (writer_leaves_unmatched_manifest world_no_comma (lit "1.2.4"))
    as [R [_ [_ [_ S]]]].
  - simpl. intuition discriminate.
  - split; [exact R|]. apply S.
    + repeat constructor; discriminate.
    + vm_compute. reflexivity.
Defined.

(** ** Line endings *)

(** X18.  The writer rewrites each manifest from the text read in text
    mode.  For a plain new version it stores no carriage return: every
    line of both manifests ends with a line feed afterwards, also outside
    the version field, whether or not the pattern has matched. *)
Theorem writer_normalises_line_endings (w : world) (v : text) :
  plain v ->
  fst (update_version_files v w) = Ok tt
  /\ Forall (fun x => x <> cr) (init_py (snd (update_version_files v w)))
  /\ Forall (fun x => x <> cr) (setup_py (snd (update_version_files v w))).
Proof.
  intros Pv.
  rewrite (update_version_files_run v w (plain_no_backslash v Pv)).
  cbn [fst snd init_py setup_py]. split; [reflexivity|]. split.
  - apply (Rewritten_Forall _ p_init_write (init_field v) (universal (init_py w))).
    + apply subst_Rewritten; [exact consuming_init_write|].
      intros m0. apply expand_plain.
    + apply init_field_no_cr, plain_no_cr, Pv.
    + apply universal_no_cr.
  - apply (Rewritten_Forall _ p_setup_write (setup_field v ++ lit ",")
             (universal (setup_py w))).
    + apply subst_Rewritten; [exact consuming_setup_write|].
      intros m0. apply expand_plain.
    + apply Forall_app. split; [apply setup_field_no_cr, plain_no_cr, Pv|].
      repeat constructor; discriminate.
    + apply universal_no_cr.
Qed.

Lemma writer_normalises_line_endings_witness :
  fst (update_version_files (lit "1.2.4") world_crlf) = Ok tt
  /\ init_py (snd (update_version_files (lit "1.2.4") world_crlf))
     = lit "__version__ = " ++ [dq] ++ lit "1.2.4" ++ [dq; lf]
  /\ Forall (fun x => x <> cr)
            (setup_py (snd (update_version_files (lit "1.2.4") world_crlf))).
Proof.
  destruct (writer_normalises_line_endings world_crlf (lit "1.2.4"))
    as [R [_ S]].
  - unfold plain. simpl. intuition discriminate.
  - split; [exact R|]. split; [reflexivity|exact S].
Defined.
